(** * RRS Situations Review: a shallow embedding of [src/App.tsx]

    The development follows the source file top to bottom: the data types,
    the localized text resolver, the category indexer, the situation
    normalizer, the filter engine, the startup load and the view-state
    controller (URL search parameters, selection repair, navigation).

    Modelling conventions.
    - A JavaScript [string] is a Rocq [string]; [null]/[undefined] is [None].
    - A JavaScript object used as a dictionary ([Record<string, T>]) is a
      [gmap string T]; a [Set<string>] is a [gset string]; arrays are lists.
      Keys are ordinary own properties: a key that was never written reads
      as [undefined] (names inherited from [Object.prototype] are not
      modelled).
    - [URLSearchParams] is an ordered list of name/value pairs.
    - A [number] that is used as an array index or an offset is an integer
      of [Z].
    - The Unicode-aware primitives [String.prototype.trim] and
      [String.prototype.toLowerCase] are the operations of the class
      [StringPrims]; an ASCII instance is given for evaluation. *)

From Stdlib Require Import String Ascii ZArith List Permutation.
From stdpp Require Import gmap strings list fin_maps pretty.

Local Open Scope string_scope.

(* ===================================================================== *)
(** * Part I. Definitions                                                 *)
(* ===================================================================== *)

(** ** JavaScript values *)

(** [!v] for a value of type [string | null]: the empty string is falsy. *)
Definition falsy (v : option string) : bool :=
  match v with
  | None => true
  | Some s => bool_decide (s = "")
  end.

(** [a ?? b] on possibly-undefined values. *)
Definition nullish {A : Type} (a b : option A) : option A :=
  match a with
  | Some x => Some x
  | None => b
  end.

(** [arr[n]] for a number [n] that is an integer: [undefined] out of range. *)
Definition at_index {A : Type} (arr : list A) (n : Z) : option A :=
  if (n <? 0)%Z then None else arr !! Z.to_nat n.

(** [arr.indexOf(x)]: the first index holding [x], or [-1]. *)
Fixpoint indexOf (arr : list string) (x : string) : Z :=
  match arr with
  | [] => (-1)%Z
  | y :: rest =>
      if bool_decide (y = x) then 0%Z
      else let r := indexOf rest x in
           if (r <? 0)%Z then (-1)%Z else (r + 1)%Z
  end.

(** [s.includes(q)]: [q] occurs in [s] as a contiguous block. *)
Fixpoint includes (s q : string) : bool :=
  String.prefix q s ||
  match s with
  | EmptyString => false
  | String _ rest => includes rest q
  end.

(** [arr.join(sep)]. *)
Fixpoint join (sep : string) (arr : list string) : string :=
  match arr with
  | [] => ""
  | [x] => x
  | x :: rest => x ++ sep ++ join sep rest
  end.

Fixpoint string_rev (s : string) : string :=
  match s with
  | EmptyString => EmptyString
  | String c rest => string_rev rest ++ String c EmptyString
  end.

(** [s.endsWith(suffix)]. *)
Definition endsWith (s suffix : string) : bool :=
  String.prefix (string_rev suffix) (string_rev s).

(** The two string primitives whose behaviour depends on Unicode tables. *)
Class StringPrims := {
  trim : string -> string;
  toLowerCase : string -> string
}.

(** The one fact about [toLowerCase] the filter relies on: it never turns a
    non-empty string into the empty one. *)
Class StringPrimsLaws (P : StringPrims) := {
  toLowerCase_nonempty : forall s : string, s <> "" -> toLowerCase s <> ""
}.

(** *** An instance for ASCII text *)

Definition ascii_lower (c : ascii) : ascii :=
  let n := nat_of_ascii c in
  if (65 <=? n)%nat && (n <=? 90)%nat then ascii_of_nat (n + 32) else c.

Fixpoint ascii_toLowerCase (s : string) : string :=
  match s with
  | EmptyString => EmptyString
  | String c rest => String (ascii_lower c) (ascii_toLowerCase rest)
  end.

Definition ascii_space (c : ascii) : bool :=
  let n := nat_of_ascii c in
  (n =? 32)%nat || ((9 <=? n)%nat && (n <=? 13)%nat).

Fixpoint trimStart (s : string) : string :=
  match s with
  | EmptyString => EmptyString
  | String c rest => if ascii_space c then trimStart rest else s
  end.

Definition ascii_trim (s : string) : string :=
  string_rev (trimStart (string_rev (trimStart s))).

#[export] Instance ascii_prims : StringPrims :=
  {| trim := ascii_trim; toLowerCase := ascii_toLowerCase |}.

(** ** Types of the source (lines 8-48) *)

Inductive Language := en | de | ru.
Inductive Difficulty := beginner | intermediate | advanced.

(** [Difficulty | 'all'] *)
Inductive DifficultyFilter := all | tier (d : Difficulty).

#[export] Instance Language_eq_dec : EqDecision Language.
Proof. solve_decision. Defined.
#[export] Instance Difficulty_eq_dec : EqDecision Difficulty.
Proof. solve_decision. Defined.
#[export] Instance DifficultyFilter_eq_dec : EqDecision DifficultyFilter.
Proof. solve_decision. Defined.

(** The string a [Language] / [Difficulty] value is at run time. *)
Definition lang_key (l : Language) : string :=
  match l with en => "en" | de => "de" | ru => "ru" end.

Definition difficulty_key (d : Difficulty) : string :=
  match d with
  | beginner => "beginner"
  | intermediate => "intermediate"
  | advanced => "advanced"
  end.

Record LocalizedEntry := {
  text : string;
  lastModified : option string
}.

#[export] Instance LocalizedEntry_eq_dec : EqDecision LocalizedEntry.
Proof. solve_decision. Defined.

(** [RawOption = Record<string, LocalizedEntry>] *)
Abbreviation RawOption := (gmap string LocalizedEntry).

Record RawSituation := {
  raw_id : string;
  raw_question : gmap string LocalizedEntry;
  raw_answer : gmap string LocalizedEntry;
  raw_answerOpt : Z;
  raw_options : list RawOption
}.

(** [Record<Language, string>] *)
Record Names := {
  name_en : string;
  name_de : string;
  name_ru : string
}.

Record SubCategory := {
  sub_id : string;
  sub_name : Names;
  situationIds : list string
}.

Record CategoryNode := {
  cat_id : string;
  cat_name : Names;
  cat_subcategories : list SubCategory
}.

(** [MediaManifest = Record<string, ('question' | 'answer')[]>] *)
Abbreviation MediaManifest := (gmap string (list string)).

Record Situation := {
  id : string;
  question : gmap string LocalizedEntry;
  answer : gmap string LocalizedEntry;
  answerOpt : Z;
  options : list RawOption;
  difficulty : Difficulty;
  hasQuestionVideo : bool;
  hasAnswerVideo : bool;
  subcategories : list string;
  parentCategories : list string
}.

#[export] Instance Situation_eq_dec : EqDecision Situation.
Proof. solve_decision. Defined.

Record SubMeta := {
  parentId : string;
  name : Names;
  parentName : Names
}.

Record CategoryIndex := {
  byId : gmap string (gset string);
  subMeta : gmap string SubMeta;
  situationToSub : gmap string (list string)
}.

(** ** Localized text resolver (lines 80-98) *)

Definition getLocalizedText (entry : gmap string LocalizedEntry) (lang : Language) : string :=
  default ""
    (nullish (text <$> entry !! lang_key lang)
    (nullish (text <$> entry !! "en")
    (nullish (text <$> entry !! "de")
             (text <$> entry !! "ru")))).

(** [a || b] on values that are an object or [undefined]: an object is
    always truthy, so only [undefined] falls through. *)
Definition or_object {A : Type} (a b : option A) : option A :=
  match a with
  | Some x => Some x
  | None => b
  end.

Definition getOptionText (option : RawOption) (lang : Language) : string :=
  text (default {| text := ""; lastModified := None |}
    (or_object (option !! lang_key lang)
    (or_object (option !! "en")
    (or_object (option !! "de")
               (option !! "ru"))))).

(** ** Category indexer (lines 100-120) *)

Definition empty_index : CategoryIndex :=
  {| byId := ∅; subMeta := ∅; situationToSub := ∅ |}.

(** Body of [sub.situationIds.forEach]: the state is the parent's set and
    the reverse index. *)
Definition visit_sid (subId : string)
    (st : gset string * gmap string (list string)) (sid : string)
    : gset string * gmap string (list string) :=
  let parentSet := st.1 in
  let s2s := st.2 in
  ({[ sid ]} ∪ parentSet,
   <[ sid := (default [] (s2s !! sid) ++ [subId])%list ]> s2s).

(** Body of [cat.subcategories.forEach]. *)
Definition visit_sub (cat : CategoryNode)
    (st : CategoryIndex * gset string) (sub : SubCategory)
    : CategoryIndex * gset string :=
  let idx := st.1 in
  let parentSet := st.2 in
  let subMeta' :=
    <[ sub_id sub := {| parentId := cat_id cat;
                        name := sub_name sub;
                        parentName := cat_name cat |} ]> (subMeta idx) in
  let byId' := <[ sub_id sub := list_to_set (situationIds sub) ]> (byId idx) in
  let r := fold_left (visit_sid (sub_id sub)) (situationIds sub)
                     (parentSet, situationToSub idx) in
  ({| byId := byId'; subMeta := subMeta'; situationToSub := r.2 |}, r.1).

(** Body of [categories.forEach]. *)
Definition visit_cat (idx : CategoryIndex) (cat : CategoryNode) : CategoryIndex :=
  let r := fold_left (visit_sub cat) (cat_subcategories cat) (idx, ∅) in
  {| byId := <[ cat_id cat := r.2 ]> (byId r.1);
     subMeta := subMeta r.1;
     situationToSub := situationToSub r.1 |}.

Definition buildCategoryIndex (categories : list CategoryNode) : CategoryIndex :=
  fold_left visit_cat categories empty_index.

(** ** Situation normalizer (lines 122-148) *)

(** [.filter(Boolean)] on a list of [string | undefined]. *)
Definition filter_Boolean (l : list (option string)) : list string :=
  omap (fun v => if falsy v then None else v) l.

Definition normalizeSituation (difficulty : Difficulty) (media : MediaManifest)
    (index : option CategoryIndex) (item : RawSituation) : Situation :=
  let options :=
    map (fun opt : RawOption =>
           filter (fun kv : string * LocalizedEntry => endsWith kv.1 "_short" = false) opt)
        (raw_options item) in
  let subcategories :=
    default [] (index ≫= fun idx => situationToSub idx !! raw_id item) in
  let parentCategories :=
    filter_Boolean
      (map (fun subId => index ≫= fun idx => parentId <$> subMeta idx !! subId)
           subcategories) in
  {| id := raw_id item;
     question := raw_question item;
     answer := raw_answer item;
     answerOpt := raw_answerOpt item;
     options := options;
     difficulty := difficulty;
     subcategories := subcategories;
     parentCategories := parentCategories;
     hasQuestionVideo :=
       match media !! raw_id item with
       | Some kinds => bool_decide ("question" ∈ kinds)
       | None => false
       end;
     hasAnswerVideo :=
       match media !! raw_id item with
       | Some kinds => bool_decide ("answer" ∈ kinds)
       | None => false
       end |}.

Definition normalizeSituations (raw : list RawSituation) (difficulty : Difficulty)
    (media : MediaManifest) (index : option CategoryIndex) : list Situation :=
  map (normalizeSituation difficulty media index) raw.

(** ** Filter engine (lines 172-205) *)

Record FilterParams := {
  p_difficulty : DifficultyFilter;
  p_category : string;
  p_query : string;
  p_lang : Language;
  p_issuesOnly : bool;
  p_categorySets : option (gmap string (gset string))
}.

(** The issue test, written inline at lines 191, 327 and 460 of the source. *)
Definition hasIssues (s : Situation) : bool :=
  negb (hasQuestionVideo s) || negb (hasAnswerVideo s)
  || bool_decide (length (subcategories s) = 0).

(** [params.difficulty !== 'all' && s.difficulty !== params.difficulty] *)
Definition difficulty_rejects (params : FilterParams) (s : Situation) : bool :=
  match p_difficulty params with
  | all => false
  | tier d => negb (bool_decide (difficulty s = d))
  end.

(** The [if (params.category) { ... }] block: [true] when it returns false. *)
Definition category_rejects (params : FilterParams) (s : Situation) : bool :=
  if bool_decide (p_category params = "") then false
  else
    match p_categorySets params ≫= fun sets => sets !! p_category params with
    | None => true
    | Some set => negb (bool_decide (id s ∈ set))
    end.

(** The [if (params.issuesOnly) { ... }] block. *)
Definition issues_rejects (params : FilterParams) (s : Situation) : bool :=
  if p_issuesOnly params then negb (hasIssues s) else false.

Definition haystack `{StringPrims} (params : FilterParams) (s : Situation) : string :=
  toLowerCase
    (join " "
       (id s
        :: getLocalizedText (question s) (p_lang params)
        :: getLocalizedText (answer s) (p_lang params)
        :: map (fun opt => getOptionText opt (p_lang params)) (options s))).

(** The callback handed to [situations.filter]; [q] is computed once outside. *)
Definition keep `{StringPrims} (params : FilterParams) (q : string) (s : Situation) : bool :=
  if difficulty_rejects params s then false
  else if category_rejects params s then false
  else if issues_rejects params s then false
  else if bool_decide (q = "") then true
  else includes (haystack params s) q.

Definition filterSituations `{StringPrims} (situations : list Situation)
    (params : FilterParams) : list Situation :=
  let q := toLowerCase (trim (p_query params)) in
  List.filter (keep params q) situations.

(** ** URL search parameters *)

Module URLSearchParams.

Definition t := list (string * string).

(** [get(name)]: the value of the first pair with that name, else [null]. *)
Fixpoint get (p : t) (key : string) : option string :=
  match p with
  | [] => None
  | (k, v) :: rest => if bool_decide (k = key) then Some v else get rest key
  end.

(** [delete(name)]: removes every pair with that name. *)
Definition delete (key : string) (p : t) : t :=
  List.filter (fun kv : string * string => negb (bool_decide (kv.1 = key))) p.

(** [set(name, value)]: overwrites the first pair with that name and drops
    the others, or appends a new pair. *)
Fixpoint set (key value : string) (p : t) : t :=
  match p with
  | [] => [(key, value)]
  | (k, v) :: rest =>
      if bool_decide (k = key) then (key, value) :: delete key rest
      else (k, v) :: set key value rest
  end.

End URLSearchParams.

(** ** Application state and startup load (lines 207-259) *)

Record AppState := {
  situations : list Situation;
  categories : list CategoryNode;
  categoryIndex : option CategoryIndex;
  uncategorized : list string;
  loading : bool;
  error : option string
}.

(** The [useState] initial values. *)
Definition initialState : AppState :=
  {| situations := []; categories := []; categoryIndex := None;
     uncategorized := []; loading := true; error := None |}.

(** What the network does for one request: [fetch] itself rejects, or it
    yields a response whose body [res.json()] parses or fails to parse. *)
Inductive Response (T : Type) :=
  | NetworkError (message : string)
  | HttpResponse (ok : bool) (status : nat) (json : string + T).
Arguments NetworkError {T} message.
Arguments HttpResponse {T} ok status json.

(** A settled promise: the time it settled at and its reason or value. *)
Record Settled (T : Type) := {
  settledAt : nat;
  outcome : string + T
}.
Arguments settledAt {T} s.
Arguments outcome {T} s.

(** [fetchJson] (lines 72-78): the reason it rejects with, or its value. *)
Definition fetchJson {T : Type} (path : string) (res : Response T) : string + T :=
  match res with
  | NetworkError message => inl message
  | HttpResponse ok status json =>
      if negb ok then inl ("Failed to load " ++ path ++ ": " ++ pretty status)
      else json
  end.

Definition DATA_FILES : list (string * Difficulty) :=
  [ ("data/situations_beginner.json", beginner);
    ("data/situations_intermediate.json", intermediate);
    ("data/situations_advanced.json", advanced) ].

Definition rejection {T : Type} (p : Settled T) : option (nat * string) :=
  match outcome p with
  | inl message => Some (settledAt p, message)
  | inr _ => None
  end.

(** The earlier of two rejections; the first argument wins a tie. *)
Definition earlier (a b : option (nat * string)) : option (nat * string) :=
  match a, b with
  | Some (ta, ma), Some (tb, mb) => if (ta <=? tb)%nat then a else b
  | Some _, None => a
  | None, _ => b
  end.

(** [Promise.all] over the five requests: all five values, or the reason of
    the request that rejected first. *)
Definition Promise_all
    (b i a : Settled (list RawSituation))
    (c : Settled (list CategoryNode)) (m : Settled MediaManifest)
    : string + (list RawSituation * list RawSituation * list RawSituation
                * list CategoryNode * MediaManifest) :=
  match outcome b, outcome i, outcome a, outcome c, outcome m with
  | inr vb, inr vi, inr va, inr vc, inr vm => inr (vb, vi, va, vc, vm)
  | _, _, _, _, _ =>
      match earlier (rejection b) (earlier (rejection i) (earlier (rejection a)
              (earlier (rejection c) (rejection m)))) with
      | Some (_, message) => inl message
      | None => inl ""
      end
  end.

(** One network behaviour per request, with the time each response settles. *)
Record Network := {
  net_beginner : nat * Response (list RawSituation);
  net_intermediate : nat * Response (list RawSituation);
  net_advanced : nat * Response (list RawSituation);
  net_categories : nat * Response (list CategoryNode);
  net_media : nat * Response MediaManifest
}.

Definition request {T : Type} (path : string) (r : nat * Response T) : Settled T :=
  {| settledAt := r.1; outcome := fetchJson path r.2 |}.

(** [DATA_FILES[n].path] *)
Definition data_path (n : nat) : string :=
  default "" (fst <$> DATA_FILES !! n).

(** The five promises handed to [Promise.all], in the order of the source. *)
Definition req_beginner (net : Network) : Settled (list RawSituation) :=
  request (data_path 0) (net_beginner net).
Definition req_intermediate (net : Network) : Settled (list RawSituation) :=
  request (data_path 1) (net_intermediate net).
Definition req_advanced (net : Network) : Settled (list RawSituation) :=
  request (data_path 2) (net_advanced net).
Definition req_categories (net : Network) : Settled (list CategoryNode) :=
  request "data/categories.json" (net_categories net).
Definition req_media (net : Network) : Settled MediaManifest :=
  request "data/media-manifest.json" (net_media net).

(** The body of [load]: the state after the [finally] block has run. *)
Definition load (st : AppState) (net : Network) : AppState :=
  let st1 := {| situations := situations st; categories := categories st;
                categoryIndex := categoryIndex st; uncategorized := uncategorized st;
                loading := true; error := None |} in
  match Promise_all (req_beginner net) (req_intermediate net) (req_advanced net)
                    (req_categories net) (req_media net) with
  | inr (beginner_, intermediate_, advanced_, categoryData, mediaManifest) =>
      let idx := buildCategoryIndex categoryData in
      let normalized :=
        (normalizeSituations beginner_ beginner mediaManifest (Some idx)
         ++ normalizeSituations intermediate_ intermediate mediaManifest (Some idx)
         ++ normalizeSituations advanced_ advanced mediaManifest (Some idx))%list in
      let unc :=
        map id (List.filter (fun s => bool_decide (length (subcategories s) = 0))
                            normalized) in
      {| situations := normalized; categories := categoryData;
         categoryIndex := Some idx; uncategorized := unc;
         loading := false; error := error st1 |}
  | inl message =>
      {| situations := situations st1; categories := categories st1;
         categoryIndex := categoryIndex st1; uncategorized := uncategorized st1;
         loading := false; error := Some message |}
  end.

(** The rejections among the five requests, with their times. *)
Definition rejections (net : Network) : list (nat * string) :=
  omap (fun r : option (nat * string) => r)
    [ rejection (req_beginner net); rejection (req_intermediate net);
      rejection (req_advanced net); rejection (req_categories net);
      rejection (req_media net) ].

(** ** View state (lines 217-227) *)

Section ViewState.
Import URLSearchParams.
Variable searchParams : URLSearchParams.t.

Definition lang : Language :=
  let langParam := get searchParams "lang" in
  if bool_decide (langParam = Some "de") then de
  else if bool_decide (langParam = Some "ru") then ru
  else en.

Definition difficultyOf : DifficultyFilter :=
  let difficultyParam := get searchParams "difficulty" in
  if bool_decide (difficultyParam = Some "beginner") then tier beginner
  else if bool_decide (difficultyParam = Some "intermediate") then tier intermediate
  else if bool_decide (difficultyParam = Some "advanced") then tier advanced
  else all.

Definition category : string :=
  let v := get searchParams "category" in if falsy v then "" else default "" v.

Definition query : string :=
  let v := get searchParams "q" in if falsy v then "" else default "" v.

Definition issuesOnly : bool := bool_decide (get searchParams "issues" = Some "1").

Definition selectedId : option string := get searchParams "id".

(** ** Selection repair, [updateParam], [selectId], [go] (lines 276-312) *)

Variable filtered : list Situation.

(** [filtered.find((s) => s.id === selectedId)] *)
Definition findSelected : option Situation :=
  List.find (fun s => bool_decide (Some (id s) = selectedId)) filtered.

(** The selection-repair effect: [Some next] when it calls
    [setSearchParams(next)], [None] when it returns without doing so. *)
Definition autoRepair : option URLSearchParams.t :=
  match filtered with
  | [] => None
  | first :: _ =>
      if falsy selectedId || negb (bool_decide (is_Some findSelected))
      then Some (set "id" (id first) searchParams)
      else None
  end.

Definition ids : list string := map id filtered.
Definition current : option Situation := findSelected.

Definition updateParam (key : string) (value : option string) (preserveId : bool)
    : URLSearchParams.t :=
  let next := searchParams in
  let next := if falsy value || bool_decide (value = Some "all")
              then delete key next
              else set key (default "" value) next in
  if negb (bool_decide (key = "id")) && negb preserveId
  then delete "id" next
  else next.

Definition selectId (i : string) : URLSearchParams.t := set "id" i searchParams.

(** [go(delta)]: [Some next] when it navigates, [None] when it does nothing. *)
Definition go (delta : Z) : option URLSearchParams.t :=
  match current with
  | None => None
  | Some cur =>
      let idx := indexOf ids (id cur) in
      let target := at_index ids (idx + delta) in
      if falsy target then None else Some (selectId (default "" target))
  end.

(** *** The event handlers of the filter controls (lines 357-440) *)

Definition onLanguageClick (l : Language) : URLSearchParams.t :=
  updateParam "lang" (Some (lang_key l)) true.

Definition onSearchChange (value : string) : URLSearchParams.t :=
  updateParam "q" (Some value) false.

Definition onDifficultyClick (d : DifficultyFilter) : URLSearchParams.t :=
  updateParam "difficulty"
    (match d with all => None | tier d' => Some (difficulty_key d') end) true.

Definition onAllCategoriesClick : URLSearchParams.t :=
  updateParam "category" None true.

Definition onSubcategoryClick (sub : SubCategory) : URLSearchParams.t :=
  updateParam "category" (Some (sub_id sub)) true.

Definition onIssuesChange (checked : bool) : URLSearchParams.t :=
  updateParam "issues" (if checked then Some "1" else None) false.

End ViewState.

(** The search parameters after an effect or handler that may or may not
    have called [setSearchParams]. *)
Definition after (searchParams : URLSearchParams.t) (r : option URLSearchParams.t)
    : URLSearchParams.t :=
  default searchParams r.

(** [categorySets] and [filtered] (lines 261-274): the list the controller
    works on, from the loaded state and the search parameters. *)
Definition categorySets (st : AppState) : gmap string (gset string) :=
  default ∅ (byId <$> categoryIndex st).

Definition filtered_view `{StringPrims} (st : AppState)
    (searchParams : URLSearchParams.t) : list Situation :=
  filterSituations (situations st)
    {| p_difficulty := difficultyOf searchParams;
       p_category := category searchParams;
       p_query := query searchParams;
       p_lang := lang searchParams;
       p_issuesOnly := issuesOnly searchParams;
       p_categorySets := Some (categorySets st) |}.

(** ** The resolver contract, in the words of the specification

    "Returns [entry[lang].text] if present; otherwise the first of
    [en, de, ru] (in that fixed order) that is present; otherwise the empty
    string." *)

Definition fallback_order : list Language := [en; de; ru].

Definition present (entry : gmap string LocalizedEntry) (l : Language) : bool :=
  bool_decide (is_Some (entry !! lang_key l)).

Definition text_at (entry : gmap string LocalizedEntry) (l : Language) : string :=
  default "" (text <$> entry !! lang_key l).

Definition resolve_spec (entry : gmap string LocalizedEntry) (L : Language) : string :=
  if present entry L then text_at entry L
  else match List.find (present entry) fallback_order with
       | Some l => text_at entry l
       | None => ""
       end.

(** ** The membership sets of an index, and the trace of writes to [byId] *)

(** [new Set(sub.situationIds)] *)
Definition sub_set (sub : SubCategory) : gset string :=
  list_to_set (situationIds sub).

(** The union of the listed members of a category's subcategories. *)
Definition parent_union (cat : CategoryNode) : gset string :=
  ⋃ (map sub_set (cat_subcategories cat)).

(** The membership set the index holds for a category or subcategory id. *)
Definition membership (idx : CategoryIndex) (k : string) : gset string :=
  default ∅ (byId idx !! k).

(** "A parent category's membership set is the union of its subcategories'
    membership sets", read in the index. *)
Definition parent_is_union (idx : CategoryIndex) (cat : CategoryNode) : Prop :=
  byId idx !! cat_id cat
  = Some (⋃ (map (fun sub => membership idx (sub_id sub)) (cat_subcategories cat))).

(** [byId[k] = v] *)
Definition write (m : gmap string (gset string)) (kv : string * gset string)
    : gmap string (gset string) :=
  <[ kv.1 := kv.2 ]> m.

Definition sub_write (sub : SubCategory) : string * gset string :=
  (sub_id sub, sub_set sub).

(** The assignments to [byId] made while visiting one category, in order. *)
Definition cat_writes (cat : CategoryNode) : list (string * gset string) :=
  (map sub_write (cat_subcategories cat) ++ [(cat_id cat, parent_union cat)])%list.

Definition writes (cats : list CategoryNode) : list (string * gset string) :=
  flat_map cat_writes cats.

(** The ids of a category: its subcategories' and its own. *)
Definition cat_ids (cat : CategoryNode) : list string :=
  (map sub_id (cat_subcategories cat) ++ [cat_id cat])%list.

Definition all_ids (cats : list CategoryNode) : list string :=
  flat_map cat_ids cats.

(** ** Vocabulary for the filter claims *)

(** [q] occurs in [s]. *)
Definition substring_of (q s : string) : Prop :=
  exists pre post : string, s = pre ++ q ++ post.

(** The same filter specification with another difficulty value. *)
Definition with_difficulty (params : FilterParams) (d : DifficultyFilter) : FilterParams :=
  {| p_difficulty := d;
     p_category := p_category params;
     p_query := p_query params;
     p_lang := p_lang params;
     p_issuesOnly := p_issuesOnly params;
     p_categorySets := p_categorySets params |}.

(** ** Further code of the source *)

(** *** Keyboard navigation (lines 150-170) *)

(** What one [keydown] event makes the handler do: whether it called
    [e.preventDefault()], and the ids it handed to [onSelect], in order. *)
Record KeyEffect := {
  preventDefault : bool;
  onSelect : list string
}.

Definition no_effect : KeyEffect := {| preventDefault := false; onSelect := [] |}.

(** One of the two [if (e.key === ...) { ... }] blocks: [hit] is its test
    and [n] the index it reads. *)
Definition key_block (hit : bool) (ids : list string) (n : Z) : KeyEffect :=
  if hit then
    let target := at_index ids n in
    {| preventDefault := true;
       onSelect := if falsy target then [] else [default "" target] |}
  else no_effect.

Definition handler (ids : list string) (selectedId : option string) (key : string)
    : KeyEffect :=
  if falsy selectedId || bool_decide (length ids = 0) then no_effect
  else
    let idx := indexOf ids (default "" selectedId) in
    if bool_decide (idx = (-1)%Z) then no_effect
    else
      let down :=
        key_block (bool_decide (key = "ArrowDown") || bool_decide (key = "ArrowRight"))
                  ids (Z.min (Z.of_nat (length ids) - 1) (idx + 1)) in
      let up :=
        key_block (bool_decide (key = "ArrowUp") || bool_decide (key = "ArrowLeft"))
                  ids (Z.max 0 (idx - 1)) in
      {| preventDefault := preventDefault down || preventDefault up;
         onSelect := (onSelect down ++ onSelect up)%list |}.

(** [useKeyboardNav(ids, current?.id ?? null, selectId)] (line 314) on one
    key press: every [onSelect] call is [selectId] on the same search
    parameters, so the last call decides. *)
Definition keydown (searchParams : URLSearchParams.t) (filtered : list Situation)
    (key : string) : option URLSearchParams.t :=
  selectId searchParams
    <$> last (onSelect (handler (ids filtered) (id <$> current searchParams filtered) key)).

(** *** The Prev and Next buttons (lines 511-516) *)

Definition prevDisabled (filtered : list Situation) (cur : Situation) : bool :=
  bool_decide (at_index (ids filtered) 0 = Some (id cur)).

Definition nextDisabled (filtered : list Situation) (cur : Situation) : bool :=
  bool_decide (at_index (ids filtered) (Z.of_nat (length (ids filtered)) - 1)
               = Some (id cur)).

(** *** Counters (lines 316-330) *)

Definition categoryCounts (sets : gmap string (gset string)) : gmap string nat :=
  size <$> sets.

(** [categoryCounts[k] || 0] *)
Definition count_pill (counts : gmap string nat) (k : string) : nat :=
  default 0%nat (counts !! k).

Definition issueIds (sits : list Situation) : list string :=
  map id (List.filter hasIssues sits).

(** *** The detail pane (lines 527-543) *)

(** [idx === current.answerOpt], for each rendered option. *)
Definition correct_marks (s : Situation) : list bool :=
  imap (fun idx _ => bool_decide (Z.of_nat idx = answerOpt s)) (options s).

(** The file name of a clip, as the [src] template literals build it. *)
Definition video_file (s : Situation) (kind : string) : string :=
  id s ++ "_" ++ kind ++ ".mp4".

(** The [videos] array after [.filter(Boolean)]: key and [src] of each clip;
    [BASE_URL] is [import.meta.env.BASE_URL]. *)
Definition videos (BASE_URL : string) (s : Situation) : list (string * string) :=
  let q := ("question", BASE_URL ++ "media/" ++ video_file s "question") in
  let a := ("answer", BASE_URL ++ "media/" ++ video_file s "answer") in
  ((if hasQuestionVideo s then [q] else []) ++ (if hasAnswerVideo s then [a] else []))%list.

(** ** The media-manifest script (README.md lines 43-78) *)

Definition is_lower_letter (c : ascii) : bool :=
  let n := nat_of_ascii c in (97 <=? n)%nat && (n <=? 122)%nat.

Definition is_digit (c : ascii) : bool :=
  let n := nat_of_ascii c in (48 <=? n)%nat && (n <=? 57)%nat.

(** The longest run of digits at the front of [s], and what follows it. *)
Fixpoint take_digits (s : string) : string * string :=
  match s with
  | EmptyString => (EmptyString, EmptyString)
  | String c rest =>
      if is_digit c then
        let r := take_digits rest in (String c r.1, r.2)
      else (EmptyString, s)
  end.

(** [name.match(/^([a-z]\d+)_(question|answer)\.mp4$/)]: the two groups. The
    digits are followed by [_], so the greedy run is the only way to match. *)
Definition match_media (name : string) : option (string * string) :=
  match name with
  | EmptyString => None
  | String c rest =>
      if is_lower_letter c then
        let r := take_digits rest in
        if bool_decide (r.1 = "") then None
        else if bool_decide (r.2 = "_question.mp4") then Some (String c r.1, "question")
        else if bool_decide (r.2 = "_answer.mp4") then Some (String c r.1, "answer")
        else None
      else None
  end.

(** The body of the [for (const name of entries)] loop. *)
Definition scan_entry (manifest : MediaManifest) (name : string) : MediaManifest :=
  if negb (endsWith name ".mp4") then manifest
  else
    match match_media name with
    | None => manifest
    | Some (i, kind) =>
        let kinds := default [] (manifest !! i) in
        if bool_decide (kind ∈ kinds) then <[ i := kinds ]> manifest
        else <[ i := (kinds ++ [kind])%list ]> manifest
    end.

Definition gen_manifest (entries : list string) : MediaManifest :=
  fold_left scan_entry entries ∅.

(** ** Vocabulary for the indexer and normalizer properties *)

(** The subcategory id once for every time [sub] lists [sid]. *)
Definition listings_in (sid : string) (sub : SubCategory) : list string :=
  map (fun _ => sub_id sub)
      (List.filter (fun x => bool_decide (x = sid)) (situationIds sub)).

(** All listings of [sid] in the tree, in declaration order. *)
Definition listings (cats : list CategoryNode) (sid : string) : list string :=
  flat_map (fun cat => flat_map (listings_in sid) (cat_subcategories cat)) cats.

(** Appending [l] to a possibly missing array, which is created on demand. *)
Definition extend (o : option (list string)) (l : list string) : option (list string) :=
  match l with
  | [] => o
  | _ => Some (default [] o ++ l)%list
  end.

(** The [subMeta] record stored for [sub] of [cat]. *)
Definition meta_of (cat : CategoryNode) (sub : SubCategory) : SubMeta :=
  {| parentId := cat_id cat; name := sub_name sub; parentName := cat_name cat |}.

Definition all_subs (cats : list CategoryNode) : list SubCategory :=
  flat_map cat_subcategories cats.

(** The option record after [normalizeSituations] stripped it. *)
Definition strip_short (opt : RawOption) : RawOption :=
  filter (fun kv : string * LocalizedEntry => endsWith kv.1 "_short" = false) opt.

(** The same filter specification with another category value. *)
Definition with_category (params : FilterParams) (c : string) : FilterParams :=
  {| p_difficulty := p_difficulty params;
     p_category := c;
     p_query := p_query params;
     p_lang := p_lang params;
     p_issuesOnly := p_issuesOnly params;
     p_categorySets := p_categorySets params |}.

(** The filter specification of a view with only the issues box ticked. *)
Definition issues_only_params (l : Language) (sets : gmap string (gset string))
    : FilterParams :=
  {| p_difficulty := all; p_category := ""; p_query := ""; p_lang := l;
     p_issuesOnly := true; p_categorySets := Some sets |}.

(** The five filter dimensions read from the search parameters. *)
Definition viewOf (searchParams : URLSearchParams.t)
    : Language * DifficultyFilter * string * string * bool :=
  (lang searchParams, difficultyOf searchParams, category searchParams,
   query searchParams, issuesOnly searchParams).

(** ** Vocabulary for the manifest script properties *)

Fixpoint all_digits (s : string) : bool :=
  match s with
  | EmptyString => true
  | String c rest => is_digit c && all_digits rest
  end.

(** An id of the shape [[a-z]\d+]: one lower-case letter, then digits. *)
Definition valid_id (i : string) : bool :=
  match i with
  | EmptyString => false
  | String c ds => is_lower_letter c && negb (bool_decide (ds = "")) && all_digits ds
  end.

(** The file name of the clip of kind [kind] for the id [i]. *)
Definition clip_name (i kind : string) : string := i ++ "_" ++ kind ++ ".mp4".

(** The kinds the manifest records for an id; none when it has no entry. *)
Definition kinds_of (manifest : MediaManifest) (i : string) : list string :=
  default [] (manifest !! i).

(** Every entry of the manifest is a non-empty list without repeats. *)
Definition tidy (manifest : MediaManifest) : Prop :=
  forall i l, manifest !! i = Some l -> NoDup l /\ l <> [].

(* ===================================================================== *)
(** * Part II. Theorems                                                   *)
(* ===================================================================== *)

(** ** URL search parameters *)

Module URLSearchParamsFacts.
Import URLSearchParams.

Lemma get_delete_eq (key : string) (p : t) : get (delete key p) key = None.
Proof.
  induction p as [|[k v] p IH]; simpl; [done|].
  case_bool_decide; simpl; [done|].
  by rewrite bool_decide_eq_false_2.
Qed.

Lemma get_delete_ne (key key' : string) (p : t) :
  key <> key' -> get (delete key p) key' = get p key'.
Proof.
  intros Hne. induction p as [|[k v] p IH]; simpl; [done|].
  case_bool_decide as Hk; simpl.
  - subst k. by rewrite bool_decide_eq_false_2.
  - by rewrite IH.
Qed.

Lemma get_set_eq (key value : string) (p : t) : get (set key value p) key = Some value.
Proof.
  induction p as [|[k v] p IH]; simpl.
  - by rewrite bool_decide_eq_true_2.
  - case_bool_decide as Hk; simpl.
    + by rewrite bool_decide_eq_true_2.
    + by rewrite bool_decide_eq_false_2.
Qed.

Lemma get_set_ne (key key' value : string) (p : t) :
  key <> key' -> get (set key value p) key' = get p key'.
Proof.
  intros Hne. induction p as [|[k v] p IH]; simpl.
  - by rewrite bool_decide_eq_false_2.
  - case_bool_decide as Hk; simpl.
    + subst k. rewrite !bool_decide_eq_false_2 by done.
      by apply get_delete_ne.
    + by rewrite IH.
Qed.

End URLSearchParamsFacts.

(** ** [updateParam] and the selection *)

Section UpdateParam.
Import URLSearchParams URLSearchParamsFacts.
Variable sp : URLSearchParams.t.

Lemma updateParam_clears (key : string) (value : option string) :
  key <> "id" -> selectedId (updateParam sp key value false) = None.
Proof.
  intros Hk. unfold selectedId, updateParam.
  rewrite bool_decide_eq_false_2 by done. simpl.
  apply get_delete_eq.
Qed.

Lemma updateParam_preserves (key : string) (value : option string) :
  key <> "id" -> selectedId (updateParam sp key value true) = selectedId sp.
Proof.
  intros Hk. unfold selectedId, updateParam.
  rewrite andb_false_r.
  destruct (falsy value || bool_decide (value = Some "all")).
  - by apply get_delete_ne.
  - by apply get_set_ne.
Qed.

Lemma autoRepair_after_clear (next : URLSearchParams.t) (first : Situation)
    (rest : list Situation) :
  selectedId next = None ->
  selectedId (after next (autoRepair next (first :: rest))) = Some (id first).
Proof.
  intros Hsel. unfold autoRepair. rewrite Hsel. simpl.
  apply get_set_eq.
Qed.

End UpdateParam.

(** C1 (as amended). Typing in the search box or toggling the issues-only
    checkbox removes the [id] parameter, so that the selection repair then
    picks the first match of a non-empty filtered list. Choosing a language,
    a difficulty, "all categories" or a subcategory is marked to preserve
    the selection: the [id] parameter is left as it was. *)
Theorem filter_changes_and_selection (sp : URLSearchParams.t) :
  (forall value, selectedId (onSearchChange sp value) = None) /\
  (forall checked, selectedId (onIssuesChange sp checked) = None) /\
  (forall value first rest,
      selectedId (after (onSearchChange sp value)
                    (autoRepair (onSearchChange sp value) (first :: rest)))
      = Some (id first)) /\
  (forall checked first rest,
      selectedId (after (onIssuesChange sp checked)
                    (autoRepair (onIssuesChange sp checked) (first :: rest)))
      = Some (id first)) /\
  (forall l, selectedId (onLanguageClick sp l) = selectedId sp) /\
  (forall d, selectedId (onDifficultyClick sp d) = selectedId sp) /\
  selectedId (onAllCategoriesClick sp) = selectedId sp /\
  (forall sub, selectedId (onSubcategoryClick sp sub) = selectedId sp).
Proof.
  repeat split; intros;
    first [ by apply updateParam_clears
          | by apply updateParam_preserves
          | apply autoRepair_after_clear; by apply updateParam_clears ].
Qed.

(** C1, as stated, fails: with item [b1] open, clicking the "Beginner"
    difficulty chip or a subcategory button leaves [id=b1] in place. *)
Lemma difficulty_and_category_keep_selection :
  let sp := [("id", "b1")] in
  let X := {| sub_id := "X"; sub_name := Build_Names "X" "X" "X"; situationIds := ["i1"] |} in
  selectedId sp = Some "b1" /\
  selectedId (onDifficultyClick sp (tier beginner)) = Some "b1" /\
  selectedId (onSubcategoryClick sp X) = Some "b1" /\
  ~ (forall d, selectedId (onDifficultyClick sp d) = None) /\
  ~ (forall sub, selectedId (onSubcategoryClick sp sub) = None).
Proof.
  repeat split; try reflexivity.
  - intros H. specialize (H (tier beginner)). discriminate H.
  - intros H. specialize (H {| sub_id := "X"; sub_name := Build_Names "X" "X" "X";
                               situationIds := ["i1"] |}). discriminate H.
Qed.

(** ** View-state parsing *)

(** C10. A [lang] parameter other than [de] or [ru] (absent or not) gives
    [en]; a [difficulty] parameter other than [beginner], [intermediate] or
    [advanced] (absent or not) gives [all]. *)
Theorem unrecognized_params_default (sp : URLSearchParams.t) :
  (URLSearchParams.get sp "lang" <> Some "de" ->
   URLSearchParams.get sp "lang" <> Some "ru" ->
   lang sp = en) /\
  (URLSearchParams.get sp "difficulty" <> Some "beginner" ->
   URLSearchParams.get sp "difficulty" <> Some "intermediate" ->
   URLSearchParams.get sp "difficulty" <> Some "advanced" ->
   difficultyOf sp = all).
Proof.
  split.
  - intros H1 H2. unfold lang. by rewrite !bool_decide_eq_false_2.
  - intros H1 H2 H3. unfold difficultyOf. by rewrite !bool_decide_eq_false_2.
Qed.

Lemma unrecognized_params_default_witness :
  lang [("lang", "fr"); ("difficulty", "expert")] = en /\
  difficultyOf [("lang", "fr"); ("difficulty", "expert")] = all /\
  lang [] = en /\ difficultyOf [] = all.
Proof.
  pose proof (unrecognized_params_default [("lang", "fr"); ("difficulty", "expert")]) as [Hl Hd].
  pose proof (unrecognized_params_default []) as [Hl0 Hd0].
  split; [|split; [|split]].
  - apply Hl; vm_compute; discriminate.
  - apply Hd; vm_compute; discriminate.
  - apply Hl0; vm_compute; discriminate.
  - apply Hd0; vm_compute; discriminate.
Defined.

(** ** Localized text resolver *)

(** C2. Both resolvers meet the contract [resolve_spec]: the text of the
    requested language when present, else that of the first present language
    among [en], [de], [ru], else the empty string. *)
Theorem resolvers_meet_contract (entry : gmap string LocalizedEntry) (L : Language) :
  getLocalizedText entry L = resolve_spec entry L /\
  getOptionText entry L = resolve_spec entry L.
Proof.
  unfold getLocalizedText, getOptionText, resolve_spec, text_at, fallback_order.
  unfold present at 1 2. simpl List.find. unfold present.
  destruct L; simpl lang_key;
    destruct (entry !! "en") as [e1|] eqn:H1;
    destruct (entry !! "de") as [e2|] eqn:H2;
    destruct (entry !! "ru") as [e3|] eqn:H3;
    cbn; rewrite ?H1, ?H2, ?H3; split; reflexivity.
Qed.

(** ** Category indexer *)

Section CategoryIndexFacts.

Lemma visit_sid_fold (subId : string) (sids : list string)
    (P : gset string) (m : gmap string (list string)) :
  (fold_left (visit_sid subId) sids (P, m)).1 = list_to_set sids ∪ P.
Proof.
  revert P m. induction sids as [|sid sids IH]; intros P m; simpl.
  - set_solver.
  - unfold visit_sid at 2. simpl. rewrite IH. set_solver.
Qed.

Lemma visit_sub_fold (cat : CategoryNode) (subs : list SubCategory)
    (idx : CategoryIndex) (P : gset string) :
  let r := fold_left (visit_sub cat) subs (idx, P) in
  r.2 = ⋃ (map sub_set subs) ∪ P /\
  byId r.1 = fold_left write (map sub_write subs) (byId idx).
Proof.
  revert idx P. induction subs as [|sub subs IH]; intros idx P; simpl.
  - split; [set_solver | done].
  - destruct (IH (visit_sub cat (idx, P) sub).1 (visit_sub cat (idx, P) sub).2)
      as [H2 H1].
    rewrite <- surjective_pairing in H2, H1.
    split.
    + rewrite H2. unfold visit_sub at 1. simpl. rewrite visit_sid_fold.
      unfold sub_set. set_solver.
    + rewrite H1. done.
Qed.

Lemma visit_cat_byId (idx : CategoryIndex) (cat : CategoryNode) :
  byId (visit_cat idx cat) = fold_left write (cat_writes cat) (byId idx).
Proof.
  unfold visit_cat, cat_writes. simpl.
  destruct (visit_sub_fold cat (cat_subcategories cat) idx ∅) as [H2 H1].
  simpl in H2, H1. rewrite fold_left_app. simpl. unfold write at 1. simpl.
  rewrite H1, H2. unfold parent_union. f_equal. set_solver.
Qed.

(** The membership map is the trace of writes replayed on the empty object. *)
Lemma buildCategoryIndex_byId_from (cats : list CategoryNode) (idx : CategoryIndex) :
  byId (fold_left visit_cat cats idx)
  = fold_left write (flat_map cat_writes cats) (byId idx).
Proof.
  revert idx. induction cats as [|cat cats IH]; intros idx; simpl; [done|].
  rewrite IH, visit_cat_byId, fold_left_app. done.
Qed.

Lemma buildCategoryIndex_byId (cats : list CategoryNode) :
  byId (buildCategoryIndex cats) = fold_left write (writes cats) ∅.
Proof. apply buildCategoryIndex_byId_from. Qed.

Lemma write_fold_untouched (l : list (string * gset string))
    (m : gmap string (gset string)) (k : string) :
  k ∉ l.*1 -> fold_left write l m !! k = m !! k.
Proof.
  revert m. induction l as [|[k' v'] l IH]; intros m Hk; simpl; [done|].
  simpl in Hk. apply not_elem_of_cons in Hk as [Hne Hk].
  rewrite IH by done. unfold write. simpl. by rewrite lookup_insert_ne.
Qed.

Lemma write_fold_lookup (l : list (string * gset string))
    (m : gmap string (gset string)) (k : string) (v : gset string) :
  NoDup l.*1 -> (k, v) ∈ l -> fold_left write l m !! k = Some v.
Proof.
  revert m. induction l as [|[k' v'] l IH]; intros m Hnd Hin; simpl.
  - by apply elem_of_nil in Hin.
  - simpl in Hnd. apply NoDup_cons in Hnd as [Hfresh Hnd].
    apply elem_of_cons in Hin as [Heq|Hin].
    + inversion Heq; subst k' v'.
      rewrite write_fold_untouched by done.
      unfold write. simpl. apply lookup_insert_eq.
    + by apply IH.
Qed.

Lemma cat_writes_keys (cat : CategoryNode) : (cat_writes cat).*1 = cat_ids cat.
Proof.
  unfold cat_writes, cat_ids.
  induction (cat_subcategories cat) as [|sub subs IHs]; [done|].
  change ((sub_id sub :: (map sub_write subs ++ [(cat_id cat, parent_union cat)])%list.*1)
          = sub_id sub :: (map sub_id subs ++ [cat_id cat])%list).
  by f_equal.
Qed.

Lemma writes_keys (cats : list CategoryNode) : (writes cats).*1 = all_ids cats.
Proof.
  unfold writes, all_ids. induction cats as [|cat cats IH]; simpl; [done|].
  by rewrite fmap_app, IH, cat_writes_keys.
Qed.

Lemma cat_write_in (cats : list CategoryNode) (cat : CategoryNode) :
  cat ∈ cats -> (cat_id cat, parent_union cat) ∈ writes cats.
Proof.
  intros Hin. unfold writes. apply list_elem_of_In, in_flat_map.
  exists cat. split; [by apply list_elem_of_In|].
  unfold cat_writes. apply in_or_app. right. by left.
Qed.

Lemma sub_write_in (cats : list CategoryNode) (cat : CategoryNode) (sub : SubCategory) :
  cat ∈ cats -> sub ∈ cat_subcategories cat ->
  (sub_id sub, sub_set sub) ∈ writes cats.
Proof.
  intros Hin Hsub. unfold writes. apply list_elem_of_In, in_flat_map.
  exists cat. split; [by apply list_elem_of_In|].
  unfold cat_writes. apply in_or_app. left.
  apply in_map_iff. exists sub. split; [done|]. by apply list_elem_of_In.
Qed.

End CategoryIndexFacts.

(** C3 (as amended). When the ids of all categories and subcategories of the
    tree are pairwise distinct, every parent category's membership set in the
    index is the union of the membership sets of its subcategories, and each
    of those is the set of the subcategory's listed situation ids. *)
Theorem parent_membership_is_union (cats : list CategoryNode) :
  NoDup (all_ids cats) ->
  forall cat, cat ∈ cats ->
    parent_is_union (buildCategoryIndex cats) cat /\
    forall sub, sub ∈ cat_subcategories cat ->
      byId (buildCategoryIndex cats) !! sub_id sub = Some (sub_set sub).
Proof.
  intros Hnd cat Hcat.
  assert (Hsubs : forall sub, sub ∈ cat_subcategories cat ->
            byId (buildCategoryIndex cats) !! sub_id sub = Some (sub_set sub)).
  { intros sub Hsub. rewrite buildCategoryIndex_byId.
    apply write_fold_lookup; [by rewrite writes_keys | by eapply sub_write_in]. }
  split; [|exact Hsubs].
  unfold parent_is_union. rewrite buildCategoryIndex_byId at 1.
  rewrite (write_fold_lookup _ _ _ (parent_union cat));
    [| by rewrite writes_keys | by apply cat_write_in].
  f_equal. unfold parent_union. f_equal.
  apply map_ext_in. intros sub Hsub. unfold membership.
  rewrite Hsubs by (by apply list_elem_of_In). done.
Qed.

Lemma parent_membership_is_union_witness :
  let A := {| sub_id := "A"; sub_name := Build_Names "a" "a" "a"; situationIds := ["s1"; "s2"] |} in
  let B := {| sub_id := "B"; sub_name := Build_Names "b" "b" "b"; situationIds := ["s2"; "s3"] |} in
  let C := {| sub_id := "C"; sub_name := Build_Names "c" "c" "c"; situationIds := ["s4"] |} in
  let P := {| cat_id := "P"; cat_name := Build_Names "p" "p" "p"; cat_subcategories := [A; B] |} in
  let Q := {| cat_id := "Q"; cat_name := Build_Names "q" "q" "q"; cat_subcategories := [C] |} in
  NoDup (all_ids [P; Q]) /\ parent_is_union (buildCategoryIndex [P; Q]) P.
Proof.
  intros A B C P Q.
  assert (Hnd : NoDup (all_ids [P; Q])).
  { apply (bool_decide_unpack _). vm_compute. exact I. }
  split; [exact Hnd|].
  apply (parent_membership_is_union [P; Q] Hnd P). apply list_elem_of_here.
Defined.

(** C3, as stated for every category tree, fails: two parent categories that
    share the id [p] (the subcategory ids are all distinct). The second
    [byId[cat.id] = parentSet] overwrites the first, so the entry at [p] is
    not the union of the first category's subcategories. *)
Lemma shared_parent_id_breaks_union :
  let s1 := {| sub_id := "s1"; sub_name := Build_Names "1" "1" "1"; situationIds := ["a"] |} in
  let s2 := {| sub_id := "s2"; sub_name := Build_Names "2" "2" "2"; situationIds := ["b"] |} in
  let c1 := {| cat_id := "p"; cat_name := Build_Names "p" "p" "p"; cat_subcategories := [s1] |} in
  let c2 := {| cat_id := "p"; cat_name := Build_Names "p" "p" "p"; cat_subcategories := [s2] |} in
  let idx := buildCategoryIndex [c1; c2] in
  NoDup (map sub_id (flat_map cat_subcategories [c1; c2])) /\
  membership idx "p" = {[ "b" ]} /\
  membership idx "s1" = {[ "a" ]} /\
  c1 ∈ [c1; c2] /\ ~ parent_is_union idx c1.
Proof.
  intros s1 s2 c1 c2 idx.
  assert (Hp : byId idx !! "p" = Some {[ "b" ]}).
  { unfold idx. rewrite buildCategoryIndex_byId. vm_compute. reflexivity. }
  assert (Hs : byId idx !! "s1" = Some {[ "a" ]}).
  { unfold idx. rewrite buildCategoryIndex_byId. vm_compute. reflexivity. }
  split; [apply (bool_decide_unpack _); vm_compute; exact I|].
  split; [unfold membership; by rewrite Hp|].
  split; [unfold membership; by rewrite Hs|].
  split; [apply list_elem_of_here|].
  intros Heq.
  change (byId idx !! "p" = Some (membership idx "s1" ∪ ∅)) in Heq.
  unfold membership in Heq. rewrite Hp, Hs in Heq. simpl in Heq.
  apply (inj Some) in Heq.
  assert (Hin : "a" ∈ ({[ "b" ]} : gset string)) by (rewrite Heq; set_solver).
  apply elem_of_singleton in Hin. discriminate Hin.
Qed.

(** ** Situation normalizer and issue test *)

(** C5. For a normalized situation [S]: the issue test holds iff [S] lacks a
    question video, or lacks an answer video, or has no subcategory; the
    issues-only branch of the filter rejects exactly the situations that fail
    the test; the two video flags are the membership of ["question"] and
    ["answer"] in the manifest entry at [S]'s id, both false when the
    manifest has no such entry; and the subcategories are the reverse-index
    entry, empty when absent. *)
Theorem issue_test_and_video_flags
    (raw : list RawSituation) (d : Difficulty) (media : MediaManifest)
    (index : option CategoryIndex) (params : FilterParams) (S : Situation) :
  In S (normalizeSituations raw d media index) ->
  (hasIssues S = true <->
     hasQuestionVideo S = false \/ hasAnswerVideo S = false \/ subcategories S = []) /\
  (p_issuesOnly params = true -> issues_rejects params S = negb (hasIssues S)) /\
  hasQuestionVideo S = from_option (fun kinds => bool_decide ("question" ∈ kinds)) false
                                   (media !! id S) /\
  hasAnswerVideo S = from_option (fun kinds => bool_decide ("answer" ∈ kinds)) false
                                 (media !! id S) /\
  (media !! id S = None -> hasQuestionVideo S = false /\ hasAnswerVideo S = false) /\
  subcategories S = default [] (index ≫= fun idx => situationToSub idx !! id S).
Proof.
  intros Hin. unfold normalizeSituations in Hin.
  apply in_map_iff in Hin as [item [<- _]].
  split; [|split; [|split; [|split; [|split]]]].
  - unfold hasIssues. rewrite !orb_true_iff, !negb_true_iff, bool_decide_eq_true.
    rewrite length_zero_iff_nil. tauto.
  - intros Hon. unfold issues_rejects. by rewrite Hon.
  - simpl. by destruct (media !! raw_id item).
  - simpl. by destruct (media !! raw_id item).
  - simpl. intros ->. done.
  - done.
Qed.

Lemma issue_test_and_video_flags_witness :
  let b1 := {| raw_id := "b1"; raw_question := ∅; raw_answer := ∅;
               raw_answerOpt := 0; raw_options := [] |} in
  let media : MediaManifest := {[ "i1" := ["question"; "answer"] ]} in
  let S := normalizeSituation beginner media None b1 in
  let params := {| p_difficulty := all; p_category := ""; p_query := "";
                   p_lang := en; p_issuesOnly := true; p_categorySets := None |} in
  In S (normalizeSituations [b1] beginner media None) /\
  (hasIssues S = true <->
     hasQuestionVideo S = false \/ hasAnswerVideo S = false \/ subcategories S = []) /\
  issues_rejects params S = negb (hasIssues S).
Proof.
  intros b1 media S params.
  assert (Hin : In S (normalizeSituations [b1] beginner media None)) by (left; reflexivity).
  destruct (issue_test_and_video_flags [b1] beginner media None params S Hin)
    as (Hiff & Hrej & _).
  split; [exact Hin|]. split; [exact Hiff|]. apply Hrej. reflexivity.
Defined.

(** ** Filter engine *)

Section FilterFacts.
Context `{P : StringPrims}.

Lemma prefix_spec (q s : string) :
  String.prefix q s = true <-> exists post, s = q ++ post.
Proof.
  revert s. induction q as [|c q IH]; intros s; simpl.
  - destruct s; (split; [intros _; eexists; reflexivity | done]).
  - destruct s as [|c' s]; simpl.
    + split; [done | intros [post Hp]; discriminate Hp].
    + destruct (Ascii.ascii_dec c c') as [->|Hne].
      * rewrite IH. split; intros [post Hp]; exists post.
        -- by rewrite Hp.
        -- by inversion Hp.
      * split; [done | intros [post Hp]; inversion Hp; done].
Qed.

Lemma includes_spec (s q : string) : includes s q = true <-> substring_of q s.
Proof.
  unfold substring_of. induction s as [|c s IH]; cbn [includes].
  - rewrite orb_false_r, prefix_spec. split.
    + intros [post Hp]. exists "", post. done.
    + intros (pre & post & Hp). destruct pre; [by exists post | discriminate Hp].
  - rewrite orb_true_iff, prefix_spec, IH. split.
    + intros [[post Hp] | (pre & post & Hp)].
      * exists "", post. done.
      * exists (String c pre), post. simpl. by rewrite Hp.
    + intros (pre & post & Hp). destruct pre as [|c' pre]; simpl in Hp.
      * left. by exists post.
      * right. inversion Hp. by exists pre, post.
Qed.

(** The difficulty test is independent of the other three. *)
Lemma keep_with_difficulty (params : FilterParams) (q : string) (d : Difficulty)
    (s : Situation) :
  keep (with_difficulty params (tier d)) q s
  = keep (with_difficulty params all) q s && bool_decide (difficulty s = d).
Proof.
  unfold keep, difficulty_rejects, category_rejects, issues_rejects, haystack. simpl.
  case_bool_decide; simpl; [by rewrite andb_true_r | by rewrite andb_false_r].
Qed.

Lemma filterSituations_tier (sits : list Situation) (params : FilterParams)
    (d : Difficulty) :
  filterSituations sits (with_difficulty params (tier d))
  = List.filter (fun s => bool_decide (difficulty s = d))
      (filterSituations sits (with_difficulty params all)).
Proof.
  unfold filterSituations. simpl.
  induction sits as [|s sits IH]; simpl; [done|].
  rewrite keep_with_difficulty, IH.
  destruct (keep (with_difficulty params all) _ s); simpl; [|done].
  by destruct (bool_decide (difficulty s = d)).
Qed.

Lemma filterSituations_tier_In (sits : list Situation) (params : FilterParams)
    (d : Difficulty) (s : Situation) :
  In s (filterSituations sits (with_difficulty params (tier d)))
  <-> In s (filterSituations sits (with_difficulty params all)) /\ difficulty s = d.
Proof. by rewrite filterSituations_tier, filter_In, bool_decide_eq_true. Qed.

Lemma filterSituations_all_perm (sits : list Situation) (params : FilterParams) :
  Permutation
    (filterSituations sits (with_difficulty params (tier beginner))
     ++ filterSituations sits (with_difficulty params (tier intermediate))
     ++ filterSituations sits (with_difficulty params (tier advanced)))%list
    (filterSituations sits (with_difficulty params all)).
Proof.
  unfold filterSituations. simpl.
  induction sits as [|s sits IH]; simpl; [done|].
  rewrite !keep_with_difficulty.
  destruct (keep (with_difficulty params all) _ s); simpl; [|exact IH].
  destruct (difficulty s); simpl.
  - by constructor.
  - rewrite <- Permutation_middle. by constructor.
  - rewrite app_assoc, <- Permutation_middle, <- app_assoc. by constructor.
Qed.

End FilterFacts.

#[export] Instance ascii_prims_laws : StringPrimsLaws ascii_prims.
Proof. constructor. intros [|c s] Hs; [done | discriminate]. Qed.

Section FilterClaims.
Context `{P : StringPrims} `{!StringPrimsLaws P}.

Lemma filterSituations_In (sits : list Situation) (params : FilterParams) (s : Situation) :
  In s (filterSituations sits params)
  <-> In s sits /\ keep params (toLowerCase (trim (p_query params))) s = true.
Proof. unfold filterSituations. apply filter_In. Qed.

Lemma filterSituations_union (sits : list Situation) (params : FilterParams) :
  List.filter
    (fun s => bool_decide
       (s ∈ filterSituations sits (with_difficulty params (tier beginner)) \/
        s ∈ filterSituations sits (with_difficulty params (tier intermediate)) \/
        s ∈ filterSituations sits (with_difficulty params (tier advanced))))
    sits
  = filterSituations sits (with_difficulty params all).
Proof.
  unfold filterSituations at 4. apply filter_ext_in. intros s Hs.
  destruct (keep _ _ s) eqn:Hk.
  - apply bool_decide_eq_true_2.
    assert (Hall : In s (filterSituations sits (with_difficulty params all)))
      by (by apply filterSituations_In).
    rewrite !list_elem_of_In, !filterSituations_tier_In.
    destruct (difficulty s); tauto.
  - apply bool_decide_eq_false_2.
    rewrite !list_elem_of_In, !filterSituations_tier_In, !filterSituations_In.
    intros [[[_ H] _]|[[[_ H] _]|[[_ H] _]]]; congruence.
Qed.

(** The collection [load] builds is the three tiers put end to end (lines
    242-246), so there the result for [all] is the three tier results put
    end to end. *)
Lemma normalizeSituations_tier (raw : list RawSituation) (d d' : Difficulty)
    (media : MediaManifest) (index : option CategoryIndex) (params : FilterParams) :
  filterSituations (normalizeSituations raw d media index)
                   (with_difficulty params (tier d'))
  = if bool_decide (d = d')
    then filterSituations (normalizeSituations raw d media index)
                          (with_difficulty params all)
    else [].
Proof.
  rewrite filterSituations_tier.
  set (l := filterSituations _ (with_difficulty params all)).
  assert (Hd : Forall (fun s => difficulty s = d) l).
  { apply Forall_forall. intros s Hs.
    apply list_elem_of_In, filterSituations_In in Hs as [Hs _].
    apply in_map_iff in Hs as [item [<- _]]. done. }
  clearbody l. induction Hd as [|s l Hs Hd IH]; simpl.
  - by case_bool_decide.
  - rewrite IH, Hs. repeat case_bool_decide; done.
Qed.

(** Filtering the loaded collection with [all] is filtering each tier's part
    with its own tier. *)
Lemma loaded_collection_by_tier (b i a : list RawSituation)
    (media : MediaManifest) (index : option CategoryIndex) (params : FilterParams) :
  let B := normalizeSituations b beginner media index in
  let I := normalizeSituations i intermediate media index in
  let A := normalizeSituations a advanced media index in
  let F := fun d => filterSituations (B ++ I ++ A)%list (with_difficulty params d) in
  F all = (F (tier beginner) ++ F (tier intermediate) ++ F (tier advanced))%list.
Proof.
  intros B I A F. unfold F, filterSituations. simpl p_query.
  rewrite !List.filter_app.
  fold (filterSituations B (with_difficulty params all)).
  fold (filterSituations I (with_difficulty params all)).
  fold (filterSituations A (with_difficulty params all)).
  repeat match goal with
  | |- context [List.filter (keep (with_difficulty params (tier ?d)) _) ?X] =>
      change (List.filter (keep (with_difficulty params (tier d))
                (toLowerCase (trim (p_query params)))) X)
        with (filterSituations X (with_difficulty params (tier d)))
  end.
  unfold B, I, A. rewrite !normalizeSituations_tier. simpl.
  by rewrite !app_nil_r.
Qed.

End FilterClaims.

(** C4. With a query that is non-empty after trimming, a situation of the
    list that passed the difficulty, category and issues-only tests is in the
    result iff the lower-cased trimmed query occurs in the lower-cased,
    space-joined id, question text, answer text and option texts, each
    resolved in the selected language. *)
Theorem query_matches_haystack `{P : StringPrims} `{!StringPrimsLaws P}
    (sits : list Situation) (params : FilterParams) (s : Situation) :
  trim (p_query params) <> "" ->
  In s sits ->
  difficulty_rejects params s = false ->
  category_rejects params s = false ->
  issues_rejects params s = false ->
  (In s (filterSituations sits params) <->
   substring_of
     (toLowerCase (trim (p_query params)))
     (toLowerCase
        (join " "
           (id s
            :: getLocalizedText (question s) (p_lang params)
            :: getLocalizedText (answer s) (p_lang params)
            :: map (fun opt => getOptionText opt (p_lang params)) (options s))))).
Proof.
  intros Hq Hs Hd Hc Hi.
  rewrite filterSituations_In. unfold keep. rewrite Hd, Hc, Hi.
  rewrite bool_decide_eq_false_2 by (by apply toLowerCase_nonempty).
  rewrite includes_spec. unfold haystack. tauto.
Qed.

Lemma query_matches_haystack_witness :
  let entry := fun t : string => ({[ "en" := {| text := t; lastModified := None |} ]}
                                  : gmap string LocalizedEntry) in
  let s := {| id := "b1"; question := entry "Reaching the mark";
              answer := entry "Keep clear"; answerOpt := 0;
              options := [entry "Port"; entry "Starboard"];
              difficulty := beginner; hasQuestionVideo := false;
              hasAnswerVideo := false; subcategories := []; parentCategories := [] |} in
  let params := {| p_difficulty := tier beginner; p_category := ""; p_query := "  REACH ";
                   p_lang := de; p_issuesOnly := true; p_categorySets := None |} in
  In s (filterSituations [s] params).
Proof.
  intros entry s params.
  apply (query_matches_haystack [s] params s).
  - vm_compute. discriminate.
  - left. reflexivity.
  - vm_compute. reflexivity.
  - vm_compute. reflexivity.
  - vm_compute. reflexivity.
  - apply includes_spec. vm_compute. reflexivity.
Defined.

(** C6. Filtering with a tier returns, in order, exactly the situations of
    that tier among those the same filter with [all] returns; two different
    tiers never share a situation; and the situations of the input that are
    in one of the three tier results, taken in input order, are the result
    for [all] (which is also a rearrangement of the three results put end
    to end). *)
Theorem difficulty_tiers_partition `{P : StringPrims}
    (sits : list Situation) (params : FilterParams) :
  let F := fun d => filterSituations sits (with_difficulty params d) in
  (forall d, F (tier d) = List.filter (fun s => bool_decide (difficulty s = d)) (F all)) /\
  (forall d s, In s (F (tier d)) <-> In s (F all) /\ difficulty s = d) /\
  (forall d1 d2 s, d1 <> d2 -> In s (F (tier d1)) -> ~ In s (F (tier d2))) /\
  List.filter
    (fun s => bool_decide (s ∈ F (tier beginner) \/ s ∈ F (tier intermediate)
                           \/ s ∈ F (tier advanced)))
    sits = F all /\
  Permutation (F (tier beginner) ++ F (tier intermediate) ++ F (tier advanced))%list (F all).
Proof.
  intros F. unfold F.
  split; [intros d; apply filterSituations_tier|].
  split; [intros d s; apply filterSituations_tier_In|].
  split.
  { intros d1 d2 s Hne H1 H2.
    apply filterSituations_tier_In in H1 as [_ H1].
    apply filterSituations_tier_In in H2 as [_ H2]. congruence. }
  split; [apply filterSituations_union | apply filterSituations_all_perm].
Qed.

Lemma difficulty_tiers_partition_witness :
  let mk := fun (i : string) (d : Difficulty) =>
    {| id := i; question := ∅; answer := ∅; answerOpt := 0; options := [];
       difficulty := d; hasQuestionVideo := true; hasAnswerVideo := true;
       subcategories := ["X"]; parentCategories := ["P"] |} in
  let sits := [mk "i1" intermediate; mk "b1" beginner; mk "a1" advanced; mk "b2" beginner] in
  let params := {| p_difficulty := all; p_category := ""; p_query := "";
                   p_lang := en; p_issuesOnly := false; p_categorySets := None |} in
  In (mk "b1" beginner) (filterSituations sits (with_difficulty params (tier beginner))) /\
  ~ In (mk "b1" beginner) (filterSituations sits (with_difficulty params (tier advanced))).
Proof.
  intros mk sits params.
  assert (Hin : In (mk "b1" beginner)
                  (filterSituations sits (with_difficulty params (tier beginner)))).
  { vm_compute. left. reflexivity. }
  destruct (difficulty_tiers_partition sits params) as (_ & _ & Hdisj & _).
  split; [exact Hin|].
  apply (Hdisj beginner advanced (mk "b1" beginner)); [discriminate | exact Hin].
Defined.

(** ** Startup load *)

Section LoadFacts.

(** [Promise.all] fulfils exactly when no request rejected; otherwise its
    reason is the reason of one of the rejected requests. *)
Lemma Promise_all_cases
    (b i a : Settled (list RawSituation))
    (c : Settled (list CategoryNode)) (m : Settled MediaManifest) :
  let rs := omap (fun r : option (nat * string) => r)
              [rejection b; rejection i; rejection a; rejection c; rejection m] in
  (rs = [] /\
   exists vb vi va vc vm,
     outcome b = inr vb /\ outcome i = inr vi /\ outcome a = inr va /\
     outcome c = inr vc /\ outcome m = inr vm /\
     Promise_all b i a c m = inr (vb, vi, va, vc, vm))
  \/
  (rs <> [] /\
   exists t message, (t, message) ∈ rs /\ Promise_all b i a c m = inl message).
Proof.
  cbv zeta. unfold Promise_all, rejection.
  destruct (outcome b) as [mb|vb], (outcome i) as [mi|vi], (outcome a) as [ma|va],
           (outcome c) as [mc|vc], (outcome m) as [mm|vm]; simpl;
    try (left; split; [reflexivity|]; by eexists _, _, _, _, _; repeat split);
    right; (split; [discriminate|]);
    repeat match goal with
           | |- context [(?x <=? ?y)%nat] => destruct (x <=? y)%nat
           end;
    simpl; eexists _, _; (split; [|reflexivity]);
    repeat first [apply list_elem_of_here | apply list_elem_of_further].
Qed.

End LoadFacts.

(** C9. If any of the five requests fails, [load] ends in an error state
    whose message is the reason of one failed request, and the situation
    collection, category list, category index and uncategorized list are
    what they were before the load: empty, from the initial state. They are
    set, all from the five values, exactly when no request fails. *)
Theorem load_all_or_nothing (st : AppState) (net : Network) :
  (rejections net <> [] ->
     (exists t message, (t, message) ∈ rejections net /\
                        error (load st net) = Some message) /\
     situations (load st net) = situations st /\
     categories (load st net) = categories st /\
     categoryIndex (load st net) = categoryIndex st /\
     uncategorized (load st net) = uncategorized st /\
     loading (load st net) = false /\
     (st = initialState ->
        situations (load st net) = [] /\ categories (load st net) = [] /\
        categoryIndex (load st net) = None /\ uncategorized (load st net) = [])) /\
  (rejections net = [] ->
     exists vb vi va vc vm,
       outcome (req_beginner net) = inr vb /\
       outcome (req_intermediate net) = inr vi /\
       outcome (req_advanced net) = inr va /\
       outcome (req_categories net) = inr vc /\
       outcome (req_media net) = inr vm /\
       let idx := buildCategoryIndex vc in
       let normalized :=
         (normalizeSituations vb beginner vm (Some idx)
          ++ normalizeSituations vi intermediate vm (Some idx)
          ++ normalizeSituations va advanced vm (Some idx))%list in
       error (load st net) = None /\
       situations (load st net) = normalized /\
       categories (load st net) = vc /\
       categoryIndex (load st net) = Some idx /\
       uncategorized (load st net)
       = map id (List.filter (fun s => bool_decide (subcategories s = [])) normalized) /\
       loading (load st net) = false) /\
  (categoryIndex (load initialState net) <> None -> rejections net = []).
Proof.
  unfold rejections, load.
  destruct (Promise_all_cases (req_beginner net) (req_intermediate net)
              (req_advanced net) (req_categories net) (req_media net))
    as [(Hnone & vb & vi & va & vc & vm & Hb & Hi & Ha & Hc & Hm & Hall)
       |(Hsome & t & message & Hin & Hall)];
    rewrite Hall; simpl.
  - split; [intros Hne; by destruct Hne|].
    split; [|done].
    intros _. exists vb, vi, va, vc, vm.
    repeat (split; [done|]). split; [|done].
    f_equal. apply filter_ext. intros s.
    apply bool_decide_ext. apply length_zero_iff_nil.
  - split.
    + intros _. split; [by exists t, message|].
      repeat (split; [done|]). intros ->. done.
    + split; [intros Hnil; by destruct (Hsome Hnil)|].
      intros Hne. by destruct Hne.
Qed.

Lemma load_all_or_nothing_witness :
  let ok := fun T (t : nat) (v : T) => (t, HttpResponse true 200 (inr v)) in
  let net := {| net_beginner := ok _ 3 [];
                net_intermediate := (2, HttpResponse false 404 (inl "unused"));
                net_advanced := ok _ 5 [];
                net_categories := (1, NetworkError "Failed to fetch");
                net_media := ok _ 4 ∅ |} in
  rejections net <> [] /\
  error (load initialState net) = Some "Failed to fetch" /\
  situations (load initialState net) = [] /\
  categoryIndex (load initialState net) = None.
Proof.
  intros ok net.
  assert (Hrej : rejections net <> []) by (vm_compute; discriminate).
  destruct (load_all_or_nothing initialState net) as [Hfail _].
  destruct (Hfail Hrej) as (_ & _ & _ & _ & _ & _ & Hinit).
  destruct (Hinit eq_refl) as (Hs & _ & Hi & _).
  split; [exact Hrej|]. split; [vm_compute; reflexivity|].
  split; [exact Hs | exact Hi].
Defined.

(** ** Selection repair and navigation *)

Section SelectionFacts.
Import URLSearchParams URLSearchParamsFacts.

(** [indexOf] returns the position of the first occurrence. *)
Lemma indexOf_first (arr : list string) (x : string) (i : nat) :
  arr !! i = Some x ->
  (forall j, (j < i)%nat -> arr !! j <> Some x) ->
  indexOf arr x = Z.of_nat i.
Proof.
  revert i. induction arr as [|y arr IH]; intros i Hi Hfirst; [done|].
  simpl. case_bool_decide as Hy.
  - subst y. destruct i as [|i]; [done|].
    exfalso. apply (Hfirst 0%nat); [lia | done].
  - destruct i as [|i]; [simpl in Hi; congruence|].
    rewrite (IH i); [| done | intros j Hj; apply (Hfirst (S j)); lia].
    destruct (Z.ltb_spec (Z.of_nat i) 0); lia.
Qed.

Lemma indexOf_NoDup (arr : list string) (x : string) (i : nat) :
  NoDup arr -> arr !! i = Some x -> indexOf arr x = Z.of_nat i.
Proof.
  intros Hnd Hi. apply indexOf_first; [done|].
  intros j Hj Hx. assert (j = i) by (eapply NoDup_lookup; eauto). lia.
Qed.

Lemma findSelected_id (sp : t) (filtered : list Situation) (cur : Situation) :
  findSelected sp filtered = Some cur -> selectedId sp = Some (id cur).
Proof.
  unfold findSelected. intros H. apply find_some in H as [_ H].
  by apply bool_decide_eq_true in H.
Qed.

Lemma findSelected_member (sp : t) (filtered : list Situation) (sel : string) :
  selectedId sp = Some sel ->
  (is_Some (findSelected sp filtered) <-> sel ∈ ids filtered).
Proof.
  intros Hsel. unfold findSelected, ids. rewrite Hsel. split.
  - intros [cur H]. apply find_some in H as [Hin H].
    apply bool_decide_eq_true in H. inversion H; subst sel.
    apply list_elem_of_In, in_map. done.
  - intros Hin. apply list_elem_of_In, in_map_iff in Hin as (s & Hs & Hin).
    destruct (List.find _ filtered) eqn:Hfind; [by eexists|].
    exfalso. eapply find_none in Hfind; [|exact Hin].
    simpl in Hfind. rewrite Hs in Hfind.
    by rewrite bool_decide_eq_true_2 in Hfind.
Qed.

Lemma falsy_Some (s : string) : falsy (Some s) = bool_decide (s = "").
Proof. done. Qed.

End SelectionFacts.

(** C7 (as amended). With the selection at index [i] of the filtered ids
    (its first occurrence; the only one when ids are distinct), [go delta]
    selects the id at index [i + delta] when that index exists and holds a
    non-empty id; it does nothing, and the selection stays, when the index is
    out of range; it also does nothing when the id there is empty. *)
Theorem go_moves_or_stays (sp : URLSearchParams.t) (filtered : list Situation)
    (sel : string) (i : nat) (delta : Z) :
  selectedId sp = Some sel ->
  ids filtered !! i = Some sel ->
  (forall j, (j < i)%nat -> ids filtered !! j <> Some sel) ->
  (forall target, at_index (ids filtered) (Z.of_nat i + delta) = Some target ->
                  target <> "" ->
     go sp filtered delta = Some (selectId sp target) /\
     selectedId (after sp (go sp filtered delta)) = Some target) /\
  (at_index (ids filtered) (Z.of_nat i + delta) = None ->
     go sp filtered delta = None /\
     selectedId (after sp (go sp filtered delta)) = Some sel) /\
  (at_index (ids filtered) (Z.of_nat i + delta) = Some "" ->
     go sp filtered delta = None).
Proof.
  intros Hsel Hi Hfirst.
  assert (Hcur : is_Some (findSelected sp filtered)).
  { apply (findSelected_member sp filtered sel Hsel).
    apply list_elem_of_lookup. by exists i. }
  destruct Hcur as [cur Hcur].
  assert (Hid : id cur = sel).
  { apply findSelected_id in Hcur. congruence. }
  unfold go, current. rewrite Hcur, Hid, (indexOf_first _ _ i Hi Hfirst).
  split; [|split].
  - intros target Ht Hne. rewrite Ht, falsy_Some.
    rewrite bool_decide_eq_false_2 by done. simpl.
    split; [done|]. apply URLSearchParamsFacts.get_set_eq.
  - intros Hnone. rewrite Hnone. simpl. done.
  - intros Hempty. rewrite Hempty. done.
Qed.

Lemma go_moves_or_stays_witness :
  let mk := fun (i : string) =>
    {| id := i; question := ∅; answer := ∅; answerOpt := 0; options := [];
       difficulty := beginner; hasQuestionVideo := true; hasAnswerVideo := true;
       subcategories := ["X"]; parentCategories := ["P"] |} in
  let filtered := [mk "a"; mk "b"; mk "c"] in
  selectedId (after [("id", "b")] (go [("id", "b")] filtered 1)) = Some "c" /\
  go [("id", "c")] filtered 1 = None /\
  go [("id", "a")] filtered (-1) = None.
Proof.
  intros mk filtered.
  assert (Hfirst : forall (sel : string) (i : nat),
             ids filtered !! i = Some sel ->
             forall j, (j < i)%nat -> ids filtered !! j <> Some sel).
  { intros sel i Hi j Hj Hx.
    assert (j = i); [|lia].
    eapply NoDup_lookup; [|exact Hx|exact Hi].
    apply (bool_decide_unpack _). vm_compute. exact I. }
  destruct (go_moves_or_stays [("id", "b")] filtered "b" 1 1 eq_refl eq_refl
              (Hfirst "b" 1%nat eq_refl)) as (Hmove & _ & _).
  destruct (go_moves_or_stays [("id", "c")] filtered "c" 2 1 eq_refl eq_refl
              (Hfirst "c" 2%nat eq_refl)) as (_ & Hlast & _).
  destruct (go_moves_or_stays [("id", "a")] filtered "a" 0 (-1) eq_refl eq_refl
              (Hfirst "a" 0%nat eq_refl)) as (_ & Hhead & _).
  split; [|split].
  - destruct (Hmove "c" eq_refl) as [_ H]; [discriminate | exact H].
  - apply (Hlast eq_refl).
  - apply (Hhead eq_refl).
Defined.

(** C7, as stated, fails when the id at the target index is the empty
    string: [if (target)] treats it like [undefined], so [go 1] from [a] in
    the sequence [a, ""] does nothing although index 1 exists. *)
Lemma go_skips_empty_id :
  let mk := fun (i : string) =>
    {| id := i; question := ∅; answer := ∅; answerOpt := 0; options := [];
       difficulty := beginner; hasQuestionVideo := true; hasAnswerVideo := true;
       subcategories := ["X"]; parentCategories := ["P"] |} in
  let filtered := [mk "a"; mk ""] in
  let sp := [("id", "a")] in
  selectedId sp = Some "a" /\
  ids filtered !! 0%nat = Some "a" /\
  at_index (ids filtered) (0 + 1) = Some "" /\
  go sp filtered 1 = None /\
  selectedId (after sp (go sp filtered 1)) = Some "a" /\
  selectedId (after sp (go sp filtered 1)) <> at_index (ids filtered) (0 + 1).
Proof.
  intros mk filtered sp. repeat split; try reflexivity.
  vm_compute. discriminate.
Qed.

(** C8 (as amended). The repair effect sets the selection to the first id
    of the filtered list iff the list is non-empty and the selected id is
    absent, empty, or not an id of the list. It does nothing on an empty
    list, and nothing when the selected id is non-empty and in the list. *)
Theorem autoRepair_fires_iff (sp : URLSearchParams.t) (filtered : list Situation) :
  (is_Some (autoRepair sp filtered) <->
     filtered <> [] /\
     (selectedId sp = None \/ selectedId sp = Some "" \/
      exists sel, selectedId sp = Some sel /\ sel ∉ ids filtered)) /\
  (forall next, autoRepair sp filtered = Some next ->
     exists first rest, filtered = first :: rest /\
       next = URLSearchParams.set "id" (id first) sp /\
       selectedId (after sp (autoRepair sp filtered)) = Some (id first)) /\
  (filtered = [] -> autoRepair sp filtered = None /\
                    selectedId (after sp (autoRepair sp filtered)) = selectedId sp) /\
  (forall sel, selectedId sp = Some sel -> sel <> "" -> sel ∈ ids filtered ->
     autoRepair sp filtered = None /\
     selectedId (after sp (autoRepair sp filtered)) = Some sel).
Proof.
  assert (Hquiet : forall sel, selectedId sp = Some sel -> sel <> "" ->
            sel ∈ ids filtered -> autoRepair sp filtered = None).
  { intros sel Hsel Hne Hin. unfold autoRepair.
    destruct filtered as [|first rest]; [done|].
    apply (findSelected_member sp _ sel Hsel) in Hin.
    rewrite Hsel, falsy_Some, bool_decide_eq_false_2 by done.
    by rewrite bool_decide_eq_true_2. }
  split; [|split; [|split]].
  - split.
    + intros [next Hnext].
      destruct filtered as [|first rest]; [discriminate Hnext|].
      split; [done|].
      destruct (selectedId sp) as [sel|] eqn:Hsel; [|by left].
      destruct (decide (sel = "")) as [->|Hne]; [right; by left|].
      right; right. exists sel. split; [done|]. intros Hin.
      rewrite (Hquiet sel) in Hnext; done.
    + intros [Hne Hwhy]. unfold autoRepair.
      destruct filtered as [|first rest]; [done|].
      destruct Hwhy as [Hsel|[Hsel|(sel & Hsel & Hnot)]].
      * rewrite Hsel. simpl. by eexists.
      * rewrite Hsel. simpl. by eexists.
      * rewrite <- (findSelected_member sp _ sel Hsel) in Hnot.
        rewrite (bool_decide_eq_false_2 _ Hnot), orb_true_r. by eexists.
  - intros next Hnext. unfold autoRepair in *.
    destruct filtered as [|first rest]; [discriminate Hnext|].
    exists first, rest. split; [done|].
    destruct (falsy _ || _); [|discriminate Hnext].
    inversion Hnext. split; [done|]. apply URLSearchParamsFacts.get_set_eq.
  - intros ->. done.
  - intros sel Hsel Hne Hin. rewrite (Hquiet sel) by done. done.
Qed.

Lemma autoRepair_fires_iff_witness :
  let mk := fun (i : string) =>
    {| id := i; question := ∅; answer := ∅; answerOpt := 0; options := [];
       difficulty := beginner; hasQuestionVideo := true; hasAnswerVideo := true;
       subcategories := ["X"]; parentCategories := ["P"] |} in
  let filtered := [mk "x"; mk "y"] in
  selectedId (after [("id", "z")] (autoRepair [("id", "z")] filtered)) = Some "x" /\
  autoRepair [("id", "y")] filtered = None /\
  autoRepair [("id", "z")] [] = None.
Proof.
  intros mk filtered.
  destruct (autoRepair_fires_iff [("id", "z")] filtered) as (_ & Hnext & _ & _).
  destruct (autoRepair_fires_iff [("id", "y")] filtered) as (_ & _ & _ & Hquiet).
  destruct (autoRepair_fires_iff [("id", "z")] []) as (_ & _ & Hempty & _).
  split; [|split].
  - destruct (Hnext _ eq_refl) as (first & rest & Hf & _ & Hsel).
    inversion Hf; subst first rest. exact Hsel.
  - apply (Hquiet "y" eq_refl); [discriminate|].
    apply list_elem_of_further, list_elem_of_here.
  - apply (Hempty eq_refl).
Defined.

(** C8, as stated, fails when the [id] parameter is the empty string and a
    situation with the empty id is in the list: [!selectedId] treats the
    empty string like [null], so the effect replaces a selection that is in
    the list. *)
Lemma autoRepair_replaces_empty_selection :
  let mk := fun (i : string) =>
    {| id := i; question := ∅; answer := ∅; answerOpt := 0; options := [];
       difficulty := beginner; hasQuestionVideo := true; hasAnswerVideo := true;
       subcategories := ["X"]; parentCategories := ["P"] |} in
  let filtered := [mk "x"; mk ""] in
  let sp := [("id", "")] in
  selectedId sp = Some "" /\
  "" ∈ ids filtered /\
  autoRepair sp filtered = Some [("id", "x")] /\
  selectedId (after sp (autoRepair sp filtered)) = Some "x" /\
  selectedId (after sp (autoRepair sp filtered)) <> selectedId sp.
Proof.
  intros mk filtered sp.
  split; [reflexivity|].
  split; [apply list_elem_of_further, list_elem_of_here|].
  split; [reflexivity|]. split; [reflexivity|]. vm_compute. discriminate.
Qed.

(* ===================================================================== *)
(** * Part III. Further properties of the code                            *)
(* ===================================================================== *)

(** ** The reverse index and the subcategory metadata *)

Section ReverseIndexFacts.

Lemma extend_app (o : option (list string)) (l1 l2 : list string) :
  extend (extend o l1) l2 = extend o (l1 ++ l2).
Proof.
  destruct l1 as [|x l1]; [done|].
  destruct l2 as [|y l2]; simpl; [by rewrite app_nil_r|].
  by rewrite <- app_assoc.
Qed.

Lemma visit_sid_reverse (subId sid : string) (sids : list string)
    (P : gset string) (m : gmap string (list string)) :
  (fold_left (visit_sid subId) sids (P, m)).2 !! sid
  = extend (m !! sid)
      (map (fun _ => subId) (List.filter (fun x => bool_decide (x = sid)) sids)).
Proof.
  revert P m. induction sids as [|x sids IH]; intros P m; [done|].
  cbn [fold_left]. unfold visit_sid at 2. cbn [fst snd]. rewrite IH.
  cbn [List.filter]. case_bool_decide as Hx.
  - subst x. rewrite lookup_insert_eq.
    exact (extend_app (m !! sid) [subId] _).
  - by rewrite lookup_insert_ne.
Qed.

Lemma visit_sub_reverse (cat : CategoryNode) (sid : string) (subs : list SubCategory)
    (idx : CategoryIndex) (P : gset string) :
  situationToSub (fold_left (visit_sub cat) subs (idx, P)).1 !! sid
  = extend (situationToSub idx !! sid) (flat_map (listings_in sid) subs).
Proof.
  revert idx P. induction subs as [|sub subs IH]; intros idx P; [done|].
  cbn [fold_left flat_map].
  rewrite (surjective_pairing (visit_sub cat (idx, P) sub)), IH.
  unfold visit_sub at 1. cbn [fst snd situationToSub].
  rewrite visit_sid_reverse, extend_app. done.
Qed.

Lemma buildCategoryIndex_reverse_from (cats : list CategoryNode) (sid : string)
    (idx : CategoryIndex) :
  situationToSub (fold_left visit_cat cats idx) !! sid
  = extend (situationToSub idx !! sid) (listings cats sid).
Proof.
  revert idx. induction cats as [|cat cats IH]; intros idx; [done|].
  cbn [fold_left]. rewrite IH. unfold visit_cat at 1. cbn [situationToSub].
  rewrite visit_sub_reverse, extend_app. done.
Qed.

(** Replaying a list of assignments on an object. *)
Lemma assign_fold_untouched {V : Type} (l : list (string * V)) (m : gmap string V)
    (k : string) :
  k ∉ l.*1 -> fold_left (fun m kv => <[ kv.1 := kv.2 ]> m) l m !! k = m !! k.
Proof.
  revert m. induction l as [|[k' v'] l IH]; intros m Hk; simpl; [done|].
  simpl in Hk. apply not_elem_of_cons in Hk as [Hne Hk].
  rewrite IH by done. by rewrite lookup_insert_ne.
Qed.

Lemma assign_fold_lookup {V : Type} (l : list (string * V)) (m : gmap string V)
    (k : string) (v : V) :
  NoDup l.*1 -> (k, v) ∈ l ->
  fold_left (fun m kv => <[ kv.1 := kv.2 ]> m) l m !! k = Some v.
Proof.
  revert m. induction l as [|[k' v'] l IH]; intros m Hnd Hin; simpl.
  - by apply elem_of_nil in Hin.
  - simpl in Hnd. apply NoDup_cons in Hnd as [Hfresh Hnd].
    apply elem_of_cons in Hin as [Heq|Hin].
    + inversion Heq; subst k' v'.
      rewrite assign_fold_untouched by done. apply lookup_insert_eq.
    + by apply IH.
Qed.

Lemma assign_fold_source {V : Type} (l : list (string * V)) (m : gmap string V)
    (k : string) (v : V) :
  fold_left (fun m kv => <[ kv.1 := kv.2 ]> m) l m !! k = Some v ->
  (k, v) ∈ l \/ m !! k = Some v.
Proof.
  revert m. induction l as [|[k' v'] l IH]; intros m H; simpl in *; [by right|].
  apply IH in H as [H|H]; [left; by apply elem_of_cons; right|].
  destruct (decide (k' = k)) as [->|Hne].
  - rewrite lookup_insert_eq in H. inversion H. left. apply list_elem_of_here.
  - rewrite lookup_insert_ne in H by done. by right.
Qed.

Lemma assign_fold_dom {V : Type} (l : list (string * V)) (m : gmap string V)
    (k : string) :
  is_Some (fold_left (fun m kv => <[ kv.1 := kv.2 ]> m) l m !! k)
  <-> k ∈ l.*1 \/ is_Some (m !! k).
Proof.
  revert m. induction l as [|[k' v'] l IH]; intros m; simpl.
  - split; [by right | intros [H|H]; [by apply elem_of_nil in H | done]].
  - rewrite IH, elem_of_cons. destruct (decide (k' = k)) as [->|Hne].
    + rewrite lookup_insert_eq. split; [intros _; by left; left | intros _; right; by eexists].
    + rewrite lookup_insert_ne by done. split.
      * intros [H|H]; [left; by right | by right].
      * intros [[H|H]|H]; [congruence | by left | by right].
Qed.

(** The assignments to [subMeta], in order. *)
Lemma visit_sub_subMeta (cat : CategoryNode) (subs : list SubCategory)
    (idx : CategoryIndex) (P : gset string) :
  subMeta (fold_left (visit_sub cat) subs (idx, P)).1
  = fold_left (fun m kv => <[ kv.1 := kv.2 ]> m)
      (map (fun sub => (sub_id sub, meta_of cat sub)) subs) (subMeta idx).
Proof.
  revert idx P. induction subs as [|sub subs IH]; intros idx P; [done|].
  cbn [fold_left map].
  rewrite (surjective_pairing (visit_sub cat (idx, P) sub)), IH. done.
Qed.

Lemma buildCategoryIndex_subMeta_from (cats : list CategoryNode) (idx : CategoryIndex) :
  subMeta (fold_left visit_cat cats idx)
  = fold_left (fun m kv => <[ kv.1 := kv.2 ]> m)
      (flat_map (fun cat => map (fun sub => (sub_id sub, meta_of cat sub))
                                (cat_subcategories cat)) cats)
      (subMeta idx).
Proof.
  revert idx. induction cats as [|cat cats IH]; intros idx; [done|].
  cbn [fold_left flat_map]. rewrite IH, fold_left_app. f_equal.
  unfold visit_cat. cbn [subMeta].
  apply visit_sub_subMeta.
Qed.

Lemma subMeta_keys (cats : list CategoryNode) :
  (flat_map (fun cat => map (fun sub => (sub_id sub, meta_of cat sub))
                            (cat_subcategories cat)) cats).*1
  = map sub_id (all_subs cats).
Proof.
  unfold all_subs. induction cats as [|cat cats IH]; [done|].
  cbn [flat_map]. rewrite fmap_app, map_app, IH. f_equal.
  induction (cat_subcategories cat) as [|sub subs IHs]; [done|].
  cbn [map]. rewrite <- IHs. done.
Qed.

End ReverseIndexFacts.

(** X1. The reverse index holds, for a situation id, the subcategory id once
    for every time a subcategory lists it, in the order of the tree
    (duplicates kept); an id listed nowhere has no entry. *)
Theorem reverse_index_lists_every_listing (cats : list CategoryNode) (sid : string) :
  situationToSub (buildCategoryIndex cats) !! sid
  = match listings cats sid with
    | [] => None
    | l => Some l
    end.
Proof.
  unfold buildCategoryIndex. rewrite buildCategoryIndex_reverse_from.
  simpl. rewrite lookup_empty. by destruct (listings cats sid).
Qed.

(** X2. [subMeta] has an entry exactly for the subcategory ids of the tree;
    when those ids are pairwise distinct, the entry of a subcategory names
    the category that contains it, with both display names. *)
Theorem subMeta_links_parent (cats : list CategoryNode) :
  (forall k, is_Some (subMeta (buildCategoryIndex cats) !! k)
             <-> k ∈ map sub_id (all_subs cats)) /\
  (NoDup (map sub_id (all_subs cats)) ->
   forall cat sub, cat ∈ cats -> sub ∈ cat_subcategories cat ->
     subMeta (buildCategoryIndex cats) !! sub_id sub = Some (meta_of cat sub)).
Proof.
  unfold buildCategoryIndex. rewrite buildCategoryIndex_subMeta_from. split.
  - intros k. rewrite assign_fold_dom, subMeta_keys. simpl.
    rewrite lookup_empty. split; [intros [H|[? H]]; done | by left].
  - intros Hnd cat sub Hcat Hsub. apply assign_fold_lookup.
    + by rewrite subMeta_keys.
    + apply list_elem_of_In, in_flat_map. exists cat.
      split; [by apply list_elem_of_In|].
      apply in_map_iff. exists sub. split; [done | by apply list_elem_of_In].
Qed.

Lemma subMeta_links_parent_witness :
  let A := {| sub_id := "A"; sub_name := Build_Names "a" "a" "a"; situationIds := ["s1"] |} in
  let B := {| sub_id := "B"; sub_name := Build_Names "b" "b" "b"; situationIds := ["s1"] |} in
  let P := {| cat_id := "P"; cat_name := Build_Names "p" "p" "p"; cat_subcategories := [A] |} in
  let Q := {| cat_id := "Q"; cat_name := Build_Names "q" "q" "q"; cat_subcategories := [B] |} in
  NoDup (map sub_id (all_subs [P; Q])) /\
  parentId <$> subMeta (buildCategoryIndex [P; Q]) !! "B" = Some "Q".
Proof.
  intros A B P Q.
  assert (Hnd : NoDup (map sub_id (all_subs [P; Q]))).
  { apply (bool_decide_unpack _). vm_compute. exact I. }
  split; [exact Hnd|].
  destruct (subMeta_links_parent [P; Q]) as [_ Hlink].
  change "B" with (sub_id B).
  rewrite (Hlink Hnd Q B); [reflexivity | |].
  - apply list_elem_of_further, list_elem_of_here.
  - apply list_elem_of_here.
Defined.

(** ** The membership map and the count pills *)

Section MembershipFacts.

Lemma size_union_le (X Y : gset string) : size (X ∪ Y) <= size X + size Y.
Proof.
  rewrite size_union_alt.
  assert (size (Y ∖ X) <= size Y) by (apply subseteq_size; set_solver). lia.
Qed.

Lemma size_list_to_set_le (l : list string) :
  size (list_to_set l : gset string) <= length l.
Proof.
  induction l as [|x l IH].
  - change (size (∅ : gset string) <= 0). by rewrite size_empty.
  - rewrite list_to_set_cons. etrans; [apply size_union_le|].
    rewrite size_singleton. simpl. lia.
Qed.

Lemma size_union_list_le (Xs : list (gset string)) :
  size (⋃ Xs) <= sum_list (map size Xs).
Proof.
  induction Xs as [|X Xs IH].
  - change (size (∅ : gset string) <= 0). by rewrite size_empty.
  - rewrite union_list_cons. etrans; [apply size_union_le|]. simpl. lia.
Qed.

Lemma byId_lookup_cat (cats : list CategoryNode) (cat : CategoryNode) :
  NoDup (all_ids cats) -> cat ∈ cats ->
  byId (buildCategoryIndex cats) !! cat_id cat = Some (parent_union cat).
Proof.
  intros Hnd Hcat. rewrite buildCategoryIndex_byId.
  apply write_fold_lookup; [by rewrite writes_keys | by apply cat_write_in].
Qed.

Lemma byId_lookup_sub (cats : list CategoryNode) (cat : CategoryNode) (sub : SubCategory) :
  NoDup (all_ids cats) -> cat ∈ cats -> sub ∈ cat_subcategories cat ->
  byId (buildCategoryIndex cats) !! sub_id sub = Some (sub_set sub).
Proof.
  intros Hnd Hcat Hsub. rewrite buildCategoryIndex_byId.
  apply write_fold_lookup; [by rewrite writes_keys | by eapply sub_write_in].
Qed.

Lemma writes_source (cats : list CategoryNode) (k : string) (S : gset string) :
  (k, S) ∈ writes cats ->
  exists cat, cat ∈ cats /\
    ((k, S) = (cat_id cat, parent_union cat) \/
     exists sub, sub ∈ cat_subcategories cat /\ (k, S) = sub_write sub).
Proof.
  intros Hin. apply list_elem_of_In, in_flat_map in Hin as (cat & Hcat & Hin).
  exists cat. split; [by apply list_elem_of_In|].
  unfold cat_writes in Hin. apply in_app_or in Hin as [Hin|[Hin|[]]].
  - right. apply in_map_iff in Hin as (sub & Heq & Hsub).
    exists sub. split; [by apply list_elem_of_In | done].
  - by left.
Qed.

End MembershipFacts.

(** X3. The membership map has an entry exactly for the category and
    subcategory ids of the tree, and every member of every entry is a
    situation id that some subcategory of the tree lists. *)
Theorem byId_keys_and_members (cats : list CategoryNode) :
  (forall k, is_Some (byId (buildCategoryIndex cats) !! k) <-> k ∈ all_ids cats) /\
  (forall k S sid, byId (buildCategoryIndex cats) !! k = Some S -> sid ∈ S ->
     exists cat sub, cat ∈ cats /\ sub ∈ cat_subcategories cat /\
                     sid ∈ situationIds sub).
Proof.
  rewrite buildCategoryIndex_byId. split.
  - intros k. etrans; [apply (assign_fold_dom (writes cats) ∅ k)|].
    rewrite writes_keys, lookup_empty.
    split; [intros [H|[? H]]; done | by left].
  - intros k S sid Hk Hsid.
    apply (assign_fold_source (writes cats) ∅ k S) in Hk as [Hk|Hk];
      [|by rewrite lookup_empty in Hk].
    apply writes_source in Hk as (cat & Hcat & [Heq|(sub & Hsub & Heq)]).
    + inversion Heq; subst k S. unfold parent_union in Hsid.
      apply elem_of_union_list in Hsid as (X & HX & Hsid).
      apply list_elem_of_In, in_map_iff in HX as (sub & <- & Hsub).
      exists cat, sub. split; [done|]. split; [by apply list_elem_of_In|].
      by apply elem_of_list_to_set in Hsid.
    + inversion Heq; subst k S. exists cat, sub. split; [done|]. split; [done|].
      by apply elem_of_list_to_set in Hsid.
Qed.

Lemma byId_keys_and_members_witness :
  let A := {| sub_id := "A"; sub_name := Build_Names "a" "a" "a"; situationIds := ["s1"] |} in
  let P := {| cat_id := "P"; cat_name := Build_Names "p" "p" "p"; cat_subcategories := [A] |} in
  exists cat sub, cat ∈ [P] /\ sub ∈ cat_subcategories cat /\ "s1" ∈ situationIds sub.
Proof.
  intros A P.
  destruct (byId_keys_and_members [P]) as [_ Hmem].
  apply (Hmem "P" {[ "s1" ]} "s1").
  - vm_compute. reflexivity.
  - apply elem_of_singleton. reflexivity.
Defined.

(** X4. With pairwise distinct ids in the tree, the count shown for a
    subcategory is at most the number of ids it lists and at most the count
    of its category, and the count of a category is at most the sum of the
    counts of its subcategories. *)
Theorem count_pills_bounds (cats : list CategoryNode) (cat : CategoryNode) :
  NoDup (all_ids cats) -> cat ∈ cats ->
  let counts := categoryCounts (byId (buildCategoryIndex cats)) in
  (forall sub, sub ∈ cat_subcategories cat ->
     count_pill counts (sub_id sub) <= length (situationIds sub) /\
     count_pill counts (sub_id sub) <= count_pill counts (cat_id cat)) /\
  count_pill counts (cat_id cat)
  <= sum_list (map (fun sub => count_pill counts (sub_id sub)) (cat_subcategories cat)).
Proof.
  intros Hnd Hcat counts.
  assert (Hc : count_pill counts (cat_id cat) = size (parent_union cat)).
  { unfold count_pill, counts, categoryCounts.
    by rewrite lookup_fmap, (byId_lookup_cat cats cat). }
  assert (Hs : forall sub, sub ∈ cat_subcategories cat ->
                 count_pill counts (sub_id sub) = size (sub_set sub)).
  { intros sub Hsub. unfold count_pill, counts, categoryCounts.
    by rewrite lookup_fmap, (byId_lookup_sub cats cat sub). }
  split.
  - intros sub Hsub. rewrite Hc, (Hs sub Hsub). split.
    + apply size_list_to_set_le.
    + apply subseteq_size. intros x Hx. unfold parent_union.
      apply elem_of_union_list. exists (sub_set sub). split; [|done].
      apply list_elem_of_In, in_map. by apply list_elem_of_In.
  - rewrite Hc. unfold parent_union.
    etrans; [apply size_union_list_le|]. rewrite map_map.
    apply Nat.eq_le_incl. f_equal. apply map_ext_in. intros sub Hsub.
    symmetry. apply Hs. by apply list_elem_of_In.
Qed.

Lemma count_pills_bounds_witness :
  let A := {| sub_id := "A"; sub_name := Build_Names "a" "a" "a"; situationIds := ["s1"; "s2"; "s1"] |} in
  let B := {| sub_id := "B"; sub_name := Build_Names "b" "b" "b"; situationIds := ["s2"; "s3"] |} in
  let P := {| cat_id := "P"; cat_name := Build_Names "p" "p" "p"; cat_subcategories := [A; B] |} in
  let counts := categoryCounts (byId (buildCategoryIndex [P])) in
  NoDup (all_ids [P]) /\
  count_pill counts "P"
  <= sum_list (map (fun sub => count_pill counts (sub_id sub)) [A; B]).
Proof.
  intros A B P counts.
  assert (Hnd : NoDup (all_ids [P])).
  { apply (bool_decide_unpack _). vm_compute. exact I. }
  split; [exact Hnd|].
  apply (count_pills_bounds [P] P Hnd). apply list_elem_of_here.
Defined.

(** ** The normalizer *)

Section NormalizerFacts.

Lemma string_app_cons (c : ascii) (a b : string) : String c a ++ b = String c (a ++ b).
Proof. reflexivity. Qed.

Lemma string_app_nil_r (s : string) : s ++ "" = s.
Proof.
  induction s as [|c s IH]; [done|]. by rewrite string_app_cons, IH.
Qed.

Lemma string_app_assoc (a b c : string) : (a ++ b) ++ c = a ++ (b ++ c).
Proof.
  induction a as [|x a IH]; [done|]. by rewrite !string_app_cons, IH.
Qed.

Lemma string_rev_app (a b : string) : string_rev (a ++ b) = string_rev b ++ string_rev a.
Proof.
  induction a as [|c a IH].
  - change (string_rev b = string_rev b ++ ""). by rewrite string_app_nil_r.
  - rewrite string_app_cons. cbn [string_rev]. by rewrite IH, string_app_assoc.
Qed.

Lemma string_rev_involutive (s : string) : string_rev (string_rev s) = s.
Proof.
  induction s as [|c s IH]; [done|].
  cbn [string_rev]. by rewrite string_rev_app, IH.
Qed.

(** [endsWith] holds exactly when the string is something followed by the
    suffix. *)
Lemma endsWith_spec (s suffix : string) :
  endsWith s suffix = true <-> exists pre, s = pre ++ suffix.
Proof.
  unfold endsWith. rewrite prefix_spec. split.
  - intros [post Hp]. exists (string_rev post).
    rewrite <- (string_rev_involutive s), Hp, string_rev_app.
    by rewrite string_rev_involutive.
  - intros [pre ->]. exists (string_rev pre). apply string_rev_app.
Qed.

Lemma strip_short_lookup (opt : RawOption) (k : string) :
  strip_short opt !! k = if endsWith k "_short" then None else opt !! k.
Proof.
  unfold strip_short. rewrite map_lookup_filter.
  destruct (opt !! k) as [e|]; simpl; [|by destruct (endsWith k "_short")].
  destruct (endsWith k "_short") eqn:He.
  - by rewrite option_guard_False.
  - by rewrite option_guard_True.
Qed.

Lemma normalized_options (d : Difficulty) (media : MediaManifest)
    (index : option CategoryIndex) (item : RawSituation) :
  options (normalizeSituation d media index item) = map strip_short (raw_options item).
Proof. done. Qed.

Lemma reverse_lookup_default (cats : list CategoryNode) (sid : string) :
  default [] (situationToSub (buildCategoryIndex cats) !! sid) = listings cats sid.
Proof.
  unfold buildCategoryIndex. rewrite buildCategoryIndex_reverse_from. simpl.
  rewrite lookup_empty. by destruct (listings cats sid).
Qed.

Lemma listings_elem (cats : list CategoryNode) (sid subId : string) :
  subId ∈ listings cats sid <->
  exists cat sub, cat ∈ cats /\ sub ∈ cat_subcategories cat /\
                  sub_id sub = subId /\ sid ∈ situationIds sub.
Proof.
  unfold listings, listings_in. rewrite list_elem_of_In, in_flat_map. split.
  - intros (cat & Hcat & Hin). apply in_flat_map in Hin as (sub & Hsub & Hin).
    apply in_map_iff in Hin as (x & Hsubid & Hx).
    apply filter_In in Hx as [Hx Heq]. apply bool_decide_eq_true in Heq. subst x.
    exists cat, sub. rewrite !list_elem_of_In. done.
  - intros (cat & sub & Hcat & Hsub & Hsubid & Hsid).
    exists cat. split; [by apply list_elem_of_In|].
    apply in_flat_map. exists sub. split; [by apply list_elem_of_In|].
    apply in_map_iff. exists sid. split; [done|].
    apply filter_In. split; [by apply list_elem_of_In | by apply bool_decide_eq_true].
Qed.

End NormalizerFacts.

(** X5. Normalizing keeps the options in number and order; in each option
    record every key that ends in [_short] is gone and every other key keeps
    its entry. *)
Theorem normalized_options_drop_short_keys (d : Difficulty) (media : MediaManifest)
    (index : option CategoryIndex) (item : RawSituation) :
  let S := normalizeSituation d media index item in
  length (options S) = length (raw_options item) /\
  forall i opt, raw_options item !! i = Some opt ->
    exists opt', options S !! i = Some opt' /\
      (forall pre, opt' !! (pre ++ "_short") = None) /\
      (forall k, (forall pre, k <> pre ++ "_short") -> opt' !! k = opt !! k).
Proof.
  intros S. unfold S. rewrite normalized_options. split; [apply length_map|].
  intros i opt Hi. exists (strip_short opt).
  split; [by rewrite list_lookup_fmap, Hi|].
  split.
  - intros pre. rewrite strip_short_lookup.
    destruct (endsWith (pre ++ "_short") "_short") eqn:He; [done|].
    assert (endsWith (pre ++ "_short") "_short" = true) by (apply endsWith_spec; by exists pre).
    congruence.
  - intros k Hk. rewrite strip_short_lookup.
    destruct (endsWith k "_short") eqn:He; [|done].
    apply endsWith_spec in He as [pre ->]. by destruct (Hk pre).
Qed.

Lemma normalized_options_drop_short_keys_witness :
  let e := fun t : string => {| text := t; lastModified := None |} in
  let opt : RawOption := {[ "en" := e "Port tack"; "en_short" := e "Port" ]} in
  let item := {| raw_id := "b1"; raw_question := ∅; raw_answer := ∅;
                 raw_answerOpt := 0; raw_options := [opt] |} in
  exists opt', options (normalizeSituation beginner ∅ None item) !! 0%nat = Some opt' /\
               opt' !! "en_short" = None /\ opt' !! "en" = Some (e "Port tack").
Proof.
  intros e opt item.
  destruct (normalized_options_drop_short_keys beginner ∅ None item) as [_ H].
  destruct (H 0%nat opt eq_refl) as (opt' & Hopt' & Hshort & Hkeep).
  exists opt'. split; [exact Hopt'|]. split.
  - apply (Hshort "en").
  - rewrite (Hkeep "en"); [reflexivity|].
    intros pre Hpre.
    assert (He : endsWith "en" "_short" = true) by (apply endsWith_spec; by exists pre).
    vm_compute in He. discriminate He.
Defined.

(** X6. The text shown for an option is the same before and after
    normalizing: dropping the [_short] keys never changes what
    [getOptionText] resolves, in any language. *)
Theorem option_text_unchanged_by_normalizing (opt : RawOption) (l : Language) :
  getOptionText (strip_short opt) l = getOptionText opt l.
Proof.
  unfold getOptionText. rewrite !strip_short_lookup.
  by destruct l.
Qed.

(** X7. With the index built from a tree, the subcategories of a normalized
    situation are the listings of its id in the tree, in order; it has none
    iff no subcategory lists its id. *)
Theorem normalized_subcategories_are_listings (cats : list CategoryNode)
    (d : Difficulty) (media : MediaManifest) (item : RawSituation) :
  let S := normalizeSituation d media (Some (buildCategoryIndex cats)) item in
  subcategories S = listings cats (raw_id item) /\
  (forall subId, subId ∈ subcategories S <->
     exists cat sub, cat ∈ cats /\ sub ∈ cat_subcategories cat /\
                     sub_id sub = subId /\ raw_id item ∈ situationIds sub) /\
  (subcategories S = [] <->
     forall cat sub, cat ∈ cats -> sub ∈ cat_subcategories cat ->
                     raw_id item ∉ situationIds sub).
Proof.
  intros S.
  assert (HS : subcategories S = listings cats (raw_id item)).
  { unfold S. simpl. apply reverse_lookup_default. }
  split; [exact HS|]. rewrite HS. split; [intros subId; apply listings_elem|].
  split.
  - intros Hnil cat sub Hcat Hsub Hin.
    assert (Hl : sub_id sub ∈ listings cats (raw_id item)).
    { apply listings_elem. by exists cat, sub. }
    rewrite Hnil in Hl. by apply elem_of_nil in Hl.
  - intros Hnone. destruct (listings cats (raw_id item)) as [|x l] eqn:Hl; [done|].
    assert (Hx : x ∈ listings cats (raw_id item)) by (rewrite Hl; apply list_elem_of_here).
    apply listings_elem in Hx as (cat & sub & Hcat & Hsub & _ & Hin).
    by destruct (Hnone cat sub Hcat Hsub).
Qed.

Lemma normalized_subcategories_are_listings_witness :
  let A := {| sub_id := "A"; sub_name := Build_Names "a" "a" "a"; situationIds := ["i1"] |} in
  let P := {| cat_id := "P"; cat_name := Build_Names "p" "p" "p"; cat_subcategories := [A] |} in
  let b1 := {| raw_id := "b1"; raw_question := ∅; raw_answer := ∅;
               raw_answerOpt := 0; raw_options := [] |} in
  subcategories (normalizeSituation beginner ∅ (Some (buildCategoryIndex [P])) b1) = [].
Proof.
  intros A P b1.
  destruct (normalized_subcategories_are_listings [P] beginner ∅ b1) as (_ & _ & Hnil).
  apply Hnil. intros cat sub Hcat Hsub Hin.
  apply list_elem_of_In in Hcat. destruct Hcat as [<-|[]].
  apply list_elem_of_In in Hsub. destruct Hsub as [<-|[]].
  apply list_elem_of_In in Hin. destruct Hin as [Hin|[]]. discriminate Hin.
Defined.

(** X8. With pairwise distinct subcategory ids and no empty category id,
    the parent categories of a normalized situation are, position by
    position, the ids of the categories that contain its subcategories: one
    per listing, repeats kept. *)
Theorem normalized_parents_follow_subcategories (cats : list CategoryNode)
    (d : Difficulty) (media : MediaManifest) (item : RawSituation) :
  NoDup (map sub_id (all_subs cats)) ->
  (forall cat, cat ∈ cats -> cat_id cat <> "") ->
  let S := normalizeSituation d media (Some (buildCategoryIndex cats)) item in
  Forall2 (fun p subId =>
             exists cat sub, cat ∈ cats /\ sub ∈ cat_subcategories cat /\
                             sub_id sub = subId /\ cat_id cat = p)
          (parentCategories S) (subcategories S).
Proof.
  intros Hnd Hne S. unfold S. cbn [parentCategories subcategories normalizeSituation].
  cbn [mbind option_bind]. rewrite reverse_lookup_default.
  assert (Hgen : forall l,
    Forall (fun subId => subId ∈ listings cats (raw_id item)) l ->
    Forall2 (fun p subId =>
               exists cat sub, cat ∈ cats /\ sub ∈ cat_subcategories cat /\
                               sub_id sub = subId /\ cat_id cat = p)
      (filter_Boolean
         (map (fun subId => parentId <$> subMeta (buildCategoryIndex cats) !! subId) l))
      l).
  { intros l Hall. induction Hall as [|subId l Hin Hall IH]; [constructor|].
    apply listings_elem in Hin as (cat & sub & Hcat & Hsub & Hid & _).
    assert (Hmeta : subMeta (buildCategoryIndex cats) !! subId = Some (meta_of cat sub)).
    { rewrite <- Hid. unfold buildCategoryIndex. rewrite buildCategoryIndex_subMeta_from.
      apply assign_fold_lookup; [by rewrite subMeta_keys|].
      apply list_elem_of_In, in_flat_map. exists cat.
      split; [by apply list_elem_of_In|].
      apply in_map_iff. exists sub. split; [done | by apply list_elem_of_In]. }
    cbn [map]. unfold filter_Boolean. cbn [omap list_omap]. rewrite Hmeta.
    cbn [fmap option_fmap option_map meta_of parentId].
    rewrite falsy_Some, bool_decide_eq_false_2 by (by apply Hne).
    constructor; [by exists cat, sub | exact IH]. }
  apply Hgen. by apply Forall_forall.
Qed.

Lemma normalized_parents_follow_subcategories_witness :
  let A := {| sub_id := "A"; sub_name := Build_Names "a" "a" "a"; situationIds := ["s1"] |} in
  let B := {| sub_id := "B"; sub_name := Build_Names "b" "b" "b"; situationIds := ["s1"] |} in
  let P := {| cat_id := "P"; cat_name := Build_Names "p" "p" "p"; cat_subcategories := [A; B] |} in
  let s1 := {| raw_id := "s1"; raw_question := ∅; raw_answer := ∅;
               raw_answerOpt := 0; raw_options := [] |} in
  let S := normalizeSituation beginner ∅ (Some (buildCategoryIndex [P])) s1 in
  length (parentCategories S) = length (subcategories S).
Proof.
  intros A B P s1 S.
  eapply Forall2_length.
  apply (normalized_parents_follow_subcategories [P] beginner ∅ s1).
  - apply (bool_decide_unpack _). vm_compute. exact I.
  - intros cat Hcat. apply list_elem_of_In in Hcat. destruct Hcat as [<-|[]]. discriminate.
Defined.

(** X9. In the detail pane an option is marked correct exactly when its
    position is [answerOpt]: at most one option is marked, and none when
    [answerOpt] is not a position of the option list. Normalizing changes
    neither the number of options nor [answerOpt]. *)
Theorem correct_option_mark (d : Difficulty) (media : MediaManifest)
    (index : option CategoryIndex) (item : RawSituation) :
  let S := normalizeSituation d media index item in
  length (correct_marks S) = length (raw_options item) /\
  (forall i, correct_marks S !! i = Some true <->
             (i < length (raw_options item))%nat /\ Z.of_nat i = raw_answerOpt item) /\
  (forall i j, correct_marks S !! i = Some true -> correct_marks S !! j = Some true -> i = j) /\
  ((raw_answerOpt item < 0 \/ Z.of_nat (length (raw_options item)) <= raw_answerOpt item)%Z ->
   forall i, correct_marks S !! i <> Some true).
Proof.
  intros S.
  assert (Hlen : length (options S) = length (raw_options item)).
  { unfold S. rewrite normalized_options. apply length_map. }
  assert (Hmark : forall i, correct_marks S !! i = Some true <->
             (i < length (raw_options item))%nat /\ Z.of_nat i = raw_answerOpt item).
  { intros i. unfold correct_marks. rewrite list_lookup_imap, <- Hlen.
    change (answerOpt S) with (raw_answerOpt item).
    destruct (options S !! i) as [opt|] eqn:Hi; cbn [fmap option_fmap option_map].
    - apply lookup_lt_Some in Hi. split.
      + intros H. apply (inj Some), bool_decide_eq_true in H. done.
      + intros [_ H]. by rewrite bool_decide_eq_true_2.
    - apply lookup_ge_None in Hi. split; [done | intros [H _]; lia]. }
  split; [unfold correct_marks; by rewrite length_imap|].
  split; [exact Hmark|]. split.
  - intros i j Hi Hj. apply Hmark in Hi as [_ Hi]. apply Hmark in Hj as [_ Hj]. lia.
  - intros Hout i Hi. apply Hmark in Hi as [Hlt Hi]. lia.
Qed.

Lemma correct_option_mark_witness :
  let e := fun t : string => ({[ "en" := {| text := t; lastModified := None |} ]} : RawOption) in
  let item := {| raw_id := "b1"; raw_question := ∅; raw_answer := ∅;
                 raw_answerOpt := 1; raw_options := [e "Port"; e "Starboard"] |} in
  correct_marks (normalizeSituation beginner ∅ None item) !! 1%nat = Some true.
Proof.
  intros e item.
  destruct (correct_option_mark beginner ∅ None item) as (_ & Hmark & _ & _).
  apply Hmark. split; [simpl; lia | reflexivity].
Defined.

(** ** The filter engine *)

Section FilterMore.
Context `{P : StringPrims}.

Lemma filter_twice {A : Type} (f : A -> bool) (l : list A) :
  List.filter f (List.filter f l) = List.filter f l.
Proof.
  induction l as [|x l IH]; simpl; [done|].
  destruct (f x) eqn:Hx; simpl; [by rewrite Hx, IH | done].
Qed.


(** With a known, non-empty category the category test is membership in its
    set, independent of the other tests. *)
Lemma keep_with_category (params : FilterParams) (q c : string)
    (sets : gmap string (gset string)) (X : gset string) (s : Situation) :
  c <> "" -> p_categorySets params = Some sets -> sets !! c = Some X ->
  keep (with_category params c) q s
  = bool_decide (id s ∈ X) && keep (with_category params "") q s.
Proof.
  intros Hc Hsets HX.
  unfold keep, difficulty_rejects, category_rejects, issues_rejects, haystack.
  cbn [with_category p_difficulty p_category p_issuesOnly p_categorySets p_lang].
  rewrite Hsets. cbn [mbind option_bind]. rewrite HX.
  rewrite (bool_decide_eq_false_2 (c = "")) by done.
  rewrite (bool_decide_eq_true_2 ("" = "")) by done.
  destruct (p_difficulty params) as [|d]; [|destruct (bool_decide (difficulty s = d))];
    destruct (bool_decide (id s ∈ X)); done.
Qed.

End FilterMore.

(** X10. Filtering is idempotent: filtering a result again with the same
    specification returns it unchanged. *)
Theorem filterSituations_idempotent `{P : StringPrims}
    (sits : list Situation) (params : FilterParams) :
  filterSituations (filterSituations sits params) params = filterSituations sits params.
Proof. unfold filterSituations. apply filter_twice. Qed.



(** X12. With difficulty [all], no category, the issues box unticked and a
    query that is empty once trimmed and lower-cased, the filter returns the
    whole collection unchanged. *)
Theorem neutral_filter_keeps_everything `{P : StringPrims}
    (sits : list Situation) (params : FilterParams) :
  p_difficulty params = all -> p_category params = "" -> p_issuesOnly params = false ->
  toLowerCase (trim (p_query params)) = "" ->
  filterSituations sits params = sits.
Proof.
  intros Hd Hc Hi Hq. unfold filterSituations. rewrite Hq.
  induction sits as [|s sits IH]; [done|].
  cbn [List.filter]. rewrite IH.
  unfold keep, difficulty_rejects, category_rejects, issues_rejects.
  by rewrite Hd, Hc, Hi.
Qed.

Lemma neutral_filter_keeps_everything_witness :
  let s := {| id := "b1"; question := ∅; answer := ∅; answerOpt := 0; options := [];
              difficulty := beginner; hasQuestionVideo := false; hasAnswerVideo := false;
              subcategories := []; parentCategories := [] |} in
  let params := {| p_difficulty := all; p_category := ""; p_query := "   ";
                   p_lang := ru; p_issuesOnly := false; p_categorySets := None |} in
  filterSituations [s; s] params = [s; s].
Proof.
  intros s params.
  apply (neutral_filter_keeps_everything [s; s] params); reflexivity.
Defined.

(** X13. With the membership map of an index built from a tree whose ids
    are pairwise distinct and non-empty, filtering by a category returns
    exactly the situations that filtering by one of its subcategories
    returns (the other criteria being equal). *)
Theorem category_filter_is_union_of_subcategories `{P : StringPrims}
    (cats : list CategoryNode) (cat : CategoryNode)
    (sits : list Situation) (params : FilterParams) (s : Situation) :
  NoDup (all_ids cats) -> "" ∉ all_ids cats -> cat ∈ cats ->
  p_categorySets params = Some (byId (buildCategoryIndex cats)) ->
  (In s (filterSituations sits (with_category params (cat_id cat))) <->
   exists sub, sub ∈ cat_subcategories cat /\
               In s (filterSituations sits (with_category params (sub_id sub)))).
Proof.
  intros Hnd Hne Hcat Hsets.
  assert (Hids : forall k, k ∈ cat_ids cat -> k <> "").
  { intros k Hk ->. apply Hne. unfold all_ids.
    apply list_elem_of_In, in_flat_map. exists cat.
    split; by apply list_elem_of_In. }
  assert (Hcid : cat_id cat <> "").
  { apply Hids. unfold cat_ids. apply list_elem_of_In, in_or_app. right. by left. }
  assert (Hsid : forall sub, sub ∈ cat_subcategories cat -> sub_id sub <> "").
  { intros sub Hsub. apply Hids. unfold cat_ids.
    apply list_elem_of_In, in_or_app. left. apply in_map. by apply list_elem_of_In. }
  rewrite filterSituations_In. cbn [with_category p_query].
  rewrite (keep_with_category params _ _ _ (parent_union cat) s Hcid Hsets
             (byId_lookup_cat cats cat Hnd Hcat)).
  rewrite andb_true_iff, bool_decide_eq_true. unfold parent_union.
  rewrite elem_of_union_list. split.
  - intros (Hs & (X & HX & Hin) & Hk).
    apply list_elem_of_In, in_map_iff in HX as (sub & <- & Hsub).
    apply list_elem_of_In in Hsub.
    exists sub. split; [done|]. rewrite filterSituations_In. cbn [with_category p_query].
    rewrite (keep_with_category params _ _ _ (sub_set sub) s (Hsid sub Hsub) Hsets
               (byId_lookup_sub cats cat sub Hnd Hcat Hsub)).
    by rewrite andb_true_iff, bool_decide_eq_true.
  - intros (sub & Hsub & Hin). rewrite filterSituations_In in Hin.
    cbn [with_category p_query] in Hin.
    rewrite (keep_with_category params _ _ _ (sub_set sub) s (Hsid sub Hsub) Hsets
               (byId_lookup_sub cats cat sub Hnd Hcat Hsub)) in Hin.
    rewrite andb_true_iff, bool_decide_eq_true in Hin.
    destruct Hin as (Hs & Hin & Hk). split; [done|]. split; [|done].
    exists (sub_set sub). split; [|done].
    apply list_elem_of_In, in_map. by apply list_elem_of_In.
Qed.

Lemma category_filter_is_union_of_subcategories_witness :
  let A := {| sub_id := "A"; sub_name := Build_Names "a" "a" "a"; situationIds := ["i1"] |} in
  let B := {| sub_id := "B"; sub_name := Build_Names "b" "b" "b"; situationIds := ["b1"] |} in
  let C := {| cat_id := "C"; cat_name := Build_Names "c" "c" "c"; cat_subcategories := [A; B] |} in
  let s := {| id := "b1"; question := ∅; answer := ∅; answerOpt := 0; options := [];
              difficulty := beginner; hasQuestionVideo := true; hasAnswerVideo := true;
              subcategories := ["B"]; parentCategories := ["C"] |} in
  let params := {| p_difficulty := all; p_category := ""; p_query := "";
                   p_lang := en; p_issuesOnly := false;
                   p_categorySets := Some (byId (buildCategoryIndex [C])) |} in
  In s (filterSituations [s] (with_category params "C")).
Proof.
  intros A B C s params.
  apply (category_filter_is_union_of_subcategories [C] C [s] params s).
  - apply (bool_decide_unpack _). vm_compute. exact I.
  - apply (bool_decide_unpack _). vm_compute. exact I.
  - apply list_elem_of_here.
  - reflexivity.
  - exists B. split; [apply list_elem_of_further, list_elem_of_here|].
    vm_compute. left. reflexivity.
Defined.

Section SearchFacts.


Lemma issueIds_sublist (sits : list Situation) :
  sublist (map id (List.filter (fun s => bool_decide (length (subcategories s) = 0)) sits))
          (issueIds sits).
Proof.
  unfold issueIds, hasIssues. induction sits as [|s sits IH]; simpl; [done|].
  case_bool_decide; simpl.
  - rewrite orb_true_r. simpl. by constructor.
  - destruct (negb (hasQuestionVideo s) || negb (hasAnswerVideo s)); simpl;
      [by constructor | done].
Qed.

End SearchFacts.



(** X15. The number in "Show items with issues (N)" counts exactly the
    situations listed when only that box is ticked: the issue ids are the
    ids of the issues-only filter result (given that the empty query stays
    empty once trimmed and lower-cased). *)
Theorem issue_count_matches_issue_filter `{P : StringPrims}
    (sits : list Situation) (l : Language) (sets : gmap string (gset string)) :
  toLowerCase (trim "") = "" ->
  issueIds sits = map id (filterSituations sits (issues_only_params l sets)).
Proof.
  intros Hq. unfold issueIds, filterSituations. cbn [issues_only_params p_query].
  rewrite Hq. f_equal. apply filter_ext. intros s.
  unfold keep, difficulty_rejects, category_rejects, issues_rejects. simpl.
  by destruct (hasIssues s).
Qed.

Lemma issue_count_matches_issue_filter_witness :
  let mk := fun (i : string) (v : bool) =>
    {| id := i; question := ∅; answer := ∅; answerOpt := 0; options := [];
       difficulty := beginner; hasQuestionVideo := v; hasAnswerVideo := true;
       subcategories := ["X"]; parentCategories := ["P"] |} in
  issueIds [mk "b1" false; mk "i1" true]
  = map id (filterSituations [mk "b1" false; mk "i1" true] (issues_only_params en ∅)).
Proof.
  intros mk. apply issue_count_matches_issue_filter. reflexivity.
Defined.

(** X16. After [load], every id counted as uncategorized is also an issue
    id, in the same order: the uncategorized list is a sub-list of the issue
    ids of the loaded collection. *)
Theorem uncategorized_are_issues (net : Network) :
  sublist (uncategorized (load initialState net))
          (issueIds (situations (load initialState net))).
Proof.
  unfold load.
  destruct (Promise_all _ _ _ _ _) as [message|[[[[vb vi] va] vc] vm]]; simpl.
  - apply sublist_nil_l.
  - apply issueIds_sublist.
Qed.

(** ** The view-state controller *)

Section ControllerFacts.
Import URLSearchParams URLSearchParamsFacts.

(** What [updateParam] leaves at its own key. *)
Lemma updateParam_own_key (sp : t) (key : string) (value : option string)
    (preserveId : bool) :
  key <> "id" ->
  get (updateParam sp key value preserveId) key
  = if falsy value || bool_decide (value = Some "all") then None else value.
Proof.
  intros Hk. unfold updateParam.
  assert (Hid : forall next, get (if negb (bool_decide (key = "id")) && negb preserveId
                                  then delete "id" next else next) key = get next key).
  { intros next. destruct (negb _ && negb _); [|done].
    apply get_delete_ne. congruence. }
  rewrite Hid. destruct (falsy value || bool_decide (value = Some "all")) eqn:Hv.
  - apply get_delete_eq.
  - rewrite get_set_eq. destruct value as [v|]; [done|]. discriminate Hv.
Qed.

(** [updateParam] touches no key other than its own and [id]. *)
Lemma updateParam_other_key (sp : t) (key key' : string) (value : option string)
    (preserveId : bool) :
  key' <> key -> key' <> "id" ->
  get (updateParam sp key value preserveId) key' = get sp key'.
Proof.
  intros Hk Hid. unfold updateParam.
  assert (H1 : forall next, get (if negb (bool_decide (key = "id")) && negb preserveId
                                 then delete "id" next else next) key' = get next key').
  { intros next. destruct (negb _ && negb _); [|done].
    apply get_delete_ne. congruence. }
  rewrite H1. destruct (falsy value || bool_decide (value = Some "all")).
  - apply get_delete_ne. congruence.
  - apply get_set_ne. congruence.
Qed.

Lemma viewOf_ext (sp sp' : t) :
  (forall key, key <> "id" -> get sp' key = get sp key) -> viewOf sp' = viewOf sp.
Proof.
  intros H. unfold viewOf, lang, difficultyOf, category, query, issuesOnly.
  by rewrite !H by discriminate.
Qed.

Lemma viewOf_set_id (sp : t) (i : string) : viewOf (set "id" i sp) = viewOf sp.
Proof. apply viewOf_ext. intros key Hk. apply get_set_ne. congruence. Qed.

Lemma go_sets_id (sp : t) (filtered : list Situation) (delta : Z) (next : t) :
  go sp filtered delta = Some next -> exists i, next = set "id" i sp.
Proof.
  unfold go. destruct (current sp filtered) as [cur|]; [|done].
  destruct (falsy _); [done|]. intros H. inversion H. by eexists.
Qed.

Lemma autoRepair_sets_id (sp : t) (filtered : list Situation) (next : t) :
  autoRepair sp filtered = Some next -> exists i, next = set "id" i sp.
Proof.
  unfold autoRepair. destruct filtered as [|first rest]; [done|].
  destruct (falsy _ || _); [|done]. intros H. inversion H. by eexists.
Qed.

Lemma keydown_sets_id (sp : t) (filtered : list Situation) (key : string) (next : t) :
  keydown sp filtered key = Some next -> exists i, next = set "id" i sp.
Proof.
  unfold keydown. destruct (last _) as [i|]; [|done].
  intros H. inversion H. by eexists.
Qed.

End ControllerFacts.

(** X17. Each filter control changes exactly its own dimension of the view
    and sets it to the chosen value; the other four dimensions stay. Two
    values do not survive: typing exactly [all] in the search box, or
    choosing a subcategory whose id is [all], removes the parameter, so the
    view reads the empty query / no category. *)
Theorem controls_change_their_own_dimension (sp : URLSearchParams.t) :
  (forall l, viewOf (onLanguageClick sp l)
             = (l, difficultyOf sp, category sp, query sp, issuesOnly sp)) /\
  (forall d, viewOf (onDifficultyClick sp d)
             = (lang sp, d, category sp, query sp, issuesOnly sp)) /\
  viewOf (onAllCategoriesClick sp)
  = (lang sp, difficultyOf sp, "", query sp, issuesOnly sp) /\
  (forall sub, viewOf (onSubcategoryClick sp sub)
               = (lang sp, difficultyOf sp,
                  if bool_decide (sub_id sub = "all") then "" else sub_id sub,
                  query sp, issuesOnly sp)) /\
  (forall value, viewOf (onSearchChange sp value)
                 = (lang sp, difficultyOf sp, category sp,
                    if bool_decide (value = "all") then "" else value,
                    issuesOnly sp)) /\
  (forall checked, viewOf (onIssuesChange sp checked)
                   = (lang sp, difficultyOf sp, category sp, query sp, checked)).
Proof.
  assert (Hval : forall v : string,
            (if falsy (Some v) || bool_decide (Some v = Some "all") then None else Some v)
            = if bool_decide (v = "" \/ v = "all") then None else Some v).
  { intros v. rewrite falsy_Some.
    destruct (decide (v = "")) as [->|H1]; [done|].
    destruct (decide (v = "all")) as [->|H2]; [done|].
    rewrite (bool_decide_eq_false_2 (v = "")) by done.
    rewrite (bool_decide_eq_false_2 (Some v = Some "all")) by congruence.
    rewrite bool_decide_eq_false_2 by tauto. done. }
  unfold viewOf, onLanguageClick, onDifficultyClick, onAllCategoriesClick,
    onSubcategoryClick, onSearchChange, onIssuesChange.
  split; [|split; [|split; [|split; [|split]]]]; intros;
    unfold lang, difficultyOf, category, query, issuesOnly;
    rewrite ?updateParam_own_key by discriminate;
    rewrite ?updateParam_other_key by discriminate.
  - by destruct l.
  - by destruct d as [|[]].
  - done.
  - rewrite Hval. destruct (decide (sub_id sub = "")) as [->|H1]; [done|].
    destruct (decide (sub_id sub = "all")) as [->|H2]; [done|].
    rewrite (bool_decide_eq_false_2 (sub_id sub = "all")) by done.
    rewrite (bool_decide_eq_false_2 (sub_id sub = "" \/ sub_id sub = "all")) by tauto.
    rewrite falsy_Some. by rewrite (bool_decide_eq_false_2 (sub_id sub = "")).
  - rewrite Hval. destruct (decide (value = "")) as [->|H1]; [done|].
    destruct (decide (value = "all")) as [->|H2]; [done|].
    rewrite (bool_decide_eq_false_2 (value = "all")) by done.
    rewrite (bool_decide_eq_false_2 (value = "" \/ value = "all")) by tauto.
    rewrite falsy_Some. by rewrite (bool_decide_eq_false_2 (value = "")).
  - by destruct checked.
Qed.

(** X18. Selecting an item (by click, by [go], by an arrow key or by the
    selection repair) writes only the [id] parameter: the five filter
    dimensions, and so the filtered list computed from them, are the same
    before and after. *)
Theorem selection_changes_keep_the_filtered_list `{P : StringPrims}
    (st : AppState) (sp : URLSearchParams.t) (filtered : list Situation)
    (next : URLSearchParams.t) :
  ((exists i, next = selectId sp i) \/
   (exists delta, go sp filtered delta = Some next) \/
   (exists key, keydown sp filtered key = Some next) \/
   autoRepair sp filtered = Some next) ->
  viewOf next = viewOf sp /\ filtered_view st next = filtered_view st sp.
Proof.
  intros H.
  assert (Hset : exists i, next = URLSearchParams.set "id" i sp).
  { destruct H as [[i ->]|[[delta H]|[[key H]|H]]].
    - by exists i.
    - by eapply go_sets_id.
    - by eapply keydown_sets_id.
    - by eapply autoRepair_sets_id. }
  destruct Hset as [i ->].
  pose proof (viewOf_set_id sp i) as Hview. split; [exact Hview|].
  unfold viewOf in Hview. inversion Hview as [[Hl Hd Hc Hq Hi]].
  unfold filtered_view. by rewrite Hl, Hd, Hc, Hq, Hi.
Qed.

Lemma selection_changes_keep_the_filtered_list_witness :
  let sp := [("lang", "de"); ("difficulty", "advanced"); ("q", "mark")] in
  viewOf (selectId sp "a7") = viewOf sp.
Proof.
  intros sp.
  apply (selection_changes_keep_the_filtered_list initialState sp [] (selectId sp "a7")).
  left. exists "a7". reflexivity.
Defined.

Section NavigationFacts.
Import URLSearchParams URLSearchParamsFacts.

Lemma indexOf_member (arr : list string) (x : string) :
  x ∈ arr ->
  exists i : nat, indexOf arr x = Z.of_nat i /\ arr !! i = Some x /\
                  forall j, (j < i)%nat -> arr !! j <> Some x.
Proof.
  induction arr as [|y arr IH]; intros Hin; [by apply elem_of_nil in Hin|].
  destruct (decide (y = x)) as [->|Hne].
  - exists 0%nat. simpl. rewrite bool_decide_eq_true_2 by done.
    split; [done|]. split; [done|]. intros j Hj. lia.
  - apply elem_of_cons in Hin as [->|Hin]; [done|].
    destruct (IH Hin) as (i & Hi & Hx & Hfirst). exists (S i).
    simpl. rewrite bool_decide_eq_false_2 by done. rewrite Hi.
    destruct (Z.ltb_spec (Z.of_nat i) 0); [lia|].
    split; [lia|]. split; [done|].
    intros [|j] Hj; simpl; [congruence | apply Hfirst; lia].
Qed.

Lemma at_index_nat {A : Type} (arr : list A) (n : nat) :
  at_index arr (Z.of_nat n) = arr !! n.
Proof.
  unfold at_index. destruct (Z.ltb_spec (Z.of_nat n) 0); [lia|].
  by rewrite Nat2Z.id.
Qed.

Lemma at_index_Some {A : Type} (arr : list A) (z : Z) (x : A) :
  at_index arr z = Some x -> exists n : nat, z = Z.of_nat n /\ arr !! n = Some x.
Proof.
  unfold at_index. destruct (Z.ltb_spec z 0); [done|].
  intros H'. exists (Z.to_nat z). split; [lia | done].
Qed.

(** [current] is the situation that carries the selected id, when one does. *)
Lemma current_of_selection (sp : t) (filtered : list Situation) (sel : string) :
  selectedId sp = Some sel -> sel ∈ ids filtered ->
  exists cur, current sp filtered = Some cur /\ id cur = sel.
Proof.
  intros Hsel Hin. unfold current.
  apply (findSelected_member sp filtered sel Hsel) in Hin as [cur Hcur].
  exists cur. split; [done|]. apply findSelected_id in Hcur. congruence.
Qed.

Lemma current_member (sp : t) (filtered : list Situation) (cur : Situation) :
  current sp filtered = Some cur ->
  selectedId sp = Some (id cur) /\ id cur ∈ ids filtered.
Proof.
  intros Hcur. pose proof (findSelected_id sp filtered cur Hcur) as Hsel.
  split; [done|]. apply (findSelected_member sp filtered (id cur) Hsel). by eexists.
Qed.

Lemma current_set_id (sp : t) (filtered : list Situation) (x : string) :
  current (set "id" x sp) filtered
  = List.find (fun s => bool_decide (Some (id s) = Some x)) filtered.
Proof. unfold current, findSelected, selectedId. by rewrite get_set_eq. Qed.

End NavigationFacts.

(** X19. The selection repair settles in one step: on a non-empty filtered
    list whose first id is not empty, after the repair effect has run once
    it has nothing more to do, and an item of the list is current. *)
Theorem autoRepair_settles (sp : URLSearchParams.t) (first : Situation)
    (rest : list Situation) :
  id first <> "" ->
  let filtered := first :: rest in
  let sp' := after sp (autoRepair sp filtered) in
  autoRepair sp' filtered = None /\
  exists cur, current sp' filtered = Some cur /\ cur ∈ filtered /\
              selectedId sp' = Some (id cur).
Proof.
  intros Hne filtered sp'. unfold sp', filtered, autoRepair.
  destruct (falsy (selectedId sp)
            || negb (bool_decide (is_Some (findSelected sp (first :: rest))))) eqn:Hfire;
    cbn [after from_option Datatypes.id].
  - assert (Hsel : selectedId (URLSearchParams.set "id" (id first) sp) = Some (id first))
      by apply URLSearchParamsFacts.get_set_eq.
    assert (Hcur : findSelected (URLSearchParams.set "id" (id first) sp) (first :: rest)
                   = Some first).
    { unfold findSelected. rewrite Hsel. simpl. by rewrite bool_decide_eq_true_2. }
    rewrite Hsel, Hcur, falsy_Some, (bool_decide_eq_false_2 _ Hne).
    rewrite bool_decide_eq_true_2 by (by eexists). split; [done|].
    exists first. split; [exact Hcur|]. split; [apply list_elem_of_here | done].
  - rewrite Hfire. split; [done|].
    apply orb_false_iff in Hfire as [_ Hfound].
    apply negb_false_iff, bool_decide_eq_true in Hfound as [cur Hcur].
    exists cur. split; [exact Hcur|]. split.
    + apply list_elem_of_In. by apply find_some in Hcur as [Hin _].
    + by apply findSelected_id in Hcur.
Qed.

Lemma autoRepair_settles_witness :
  let mk := fun (i : string) =>
    {| id := i; question := ∅; answer := ∅; answerOpt := 0; options := [];
       difficulty := beginner; hasQuestionVideo := true; hasAnswerVideo := true;
       subcategories := ["X"]; parentCategories := ["P"] |} in
  let sp := [("q", "mark"); ("id", "z")] in
  autoRepair (after sp (autoRepair sp [mk "x"; mk "y"])) [mk "x"; mk "y"] = None.
Proof.
  intros mk sp.
  destruct (autoRepair_settles sp (mk "x") [mk "y"]) as [H _]; [discriminate|].
  exact H.
Defined.

(** X20. Navigation can be undone: when the filtered ids are pairwise
    distinct and none is empty, a [go delta] that moved the selection is
    reverted by [go (-delta)], which selects the original id again. *)
Theorem go_back_returns (sp : URLSearchParams.t) (filtered : list Situation)
    (sel : string) (delta : Z) (sp1 : URLSearchParams.t) :
  NoDup (ids filtered) -> "" ∉ ids filtered ->
  selectedId sp = Some sel ->
  go sp filtered delta = Some sp1 ->
  exists sp2, go sp1 filtered (- delta) = Some sp2 /\ selectedId sp2 = Some sel.
Proof.
  intros Hnd Hne Hsel Hgo. unfold go in Hgo.
  destruct (current sp filtered) as [cur|] eqn:Hcur; [|done].
  destruct (current_member sp filtered cur Hcur) as [Hsel' Hin].
  assert (id cur = sel) by congruence. subst sel.
  destruct (indexOf_member _ _ Hin) as (i & Hi & Hx & _).
  rewrite Hi in Hgo.
  destruct (at_index (ids filtered) (Z.of_nat i + delta)) as [t|] eqn:Ht; [|done].
  rewrite falsy_Some in Hgo. case_bool_decide as Hte; [done|].
  inversion Hgo; subst sp1. clear Hgo. cbn [from_option Datatypes.id].
  apply at_index_Some in Ht as (n & Hn & Ht).
  assert (Htin : t ∈ ids filtered) by (apply list_elem_of_lookup; by exists n).
  destruct (current_of_selection (selectId sp t) filtered t) as (cur' & Hcur' & Hid');
    [apply URLSearchParamsFacts.get_set_eq | done |].
  unfold go. rewrite Hcur', Hid', (indexOf_NoDup _ _ n Hnd Ht).
  replace (Z.of_nat n + - delta)%Z with (Z.of_nat i) by lia.
  rewrite at_index_nat, Hx, falsy_Some.
  rewrite bool_decide_eq_false_2 by (intros Heq; apply Hne; by rewrite <- Heq).
  eexists. split; [done|]. apply URLSearchParamsFacts.get_set_eq.
Qed.

Lemma go_back_returns_witness :
  let mk := fun (i : string) =>
    {| id := i; question := ∅; answer := ∅; answerOpt := 0; options := [];
       difficulty := beginner; hasQuestionVideo := true; hasAnswerVideo := true;
       subcategories := ["X"]; parentCategories := ["P"] |} in
  let filtered := [mk "a"; mk "b"; mk "c"] in
  exists sp2, go [("id", "c")] filtered (- 2) = Some sp2 /\ selectedId sp2 = Some "a".
Proof.
  intros mk filtered.
  apply (go_back_returns [("id", "a")] filtered "a" 2 [("id", "c")]).
  - apply (bool_decide_unpack _). vm_compute. exact I.
  - apply (bool_decide_unpack _). vm_compute. exact I.
  - reflexivity.
  - reflexivity.
Defined.

Section KeyboardFacts.

Lemma handler_active (arr : list string) (sel key : string) (i : nat) :
  sel <> "" -> arr !! i = Some sel ->
  (forall j, (j < i)%nat -> arr !! j <> Some sel) ->
  handler arr (Some sel) key
  = let down :=
      key_block (bool_decide (key = "ArrowDown") || bool_decide (key = "ArrowRight"))
                arr (Z.of_nat (Nat.min (length arr - 1) (i + 1))) in
    let up :=
      key_block (bool_decide (key = "ArrowUp") || bool_decide (key = "ArrowLeft"))
                arr (Z.of_nat (i - 1)) in
    {| preventDefault := preventDefault down || preventDefault up;
       onSelect := (onSelect down ++ onSelect up)%list |}.
Proof.
  intros Hne Hi Hfirst. unfold handler.
  pose proof (lookup_lt_Some _ _ _ Hi) as Hlt.
  rewrite falsy_Some, (bool_decide_eq_false_2 (sel = "")) by done.
  rewrite (bool_decide_eq_false_2 (length arr = 0)) by lia.
  cbn [orb from_option Datatypes.id]. rewrite (indexOf_first arr sel i Hi Hfirst).
  rewrite bool_decide_eq_false_2 by lia.
  replace (Z.min (Z.of_nat (length arr) - 1) (Z.of_nat i + 1))
    with (Z.of_nat (Nat.min (length arr - 1) (i + 1))) by lia.
  replace (Z.max 0 (Z.of_nat i - 1)) with (Z.of_nat (i - 1)) by lia.
  done.
Qed.

Lemma key_block_hit (arr : list string) (n : nat) (t : string) :
  arr !! n = Some t -> t <> "" ->
  key_block true arr (Z.of_nat n) = {| preventDefault := true; onSelect := [t] |}.
Proof.
  intros Hn Ht. unfold key_block. rewrite at_index_nat, Hn, falsy_Some.
  by rewrite bool_decide_eq_false_2.
Qed.

End KeyboardFacts.

(** X21. Arrow keys move the selection with clamping. With pairwise
    distinct, non-empty filtered ids and the current item at position [i]:
    Down/Right selects the id at position [min (n-1) (i+1)], Up/Left the id
    at position [i-1] (position 0 when [i] is 0), both suppress the
    default action, and any other key does nothing. With no current item the
    handler does nothing for any key. *)
Theorem keyboard_moves_with_clamping (sp : URLSearchParams.t)
    (filtered : list Situation) (key : string) :
  (current sp filtered = None ->
     handler (ids filtered) (id <$> current sp filtered) key = no_effect /\
     keydown sp filtered key = None) /\
  (forall cur i,
     current sp filtered = Some cur ->
     NoDup (ids filtered) -> "" ∉ ids filtered ->
     ids filtered !! i = Some (id cur) ->
     let eff := handler (ids filtered) (id <$> current sp filtered) key in
     let sel' := selectedId (after sp (keydown sp filtered key)) in
     (key = "ArrowDown" \/ key = "ArrowRight" ->
        preventDefault eff = true /\
        sel' = ids filtered !! Nat.min (length (ids filtered) - 1) (i + 1)) /\
     (key = "ArrowUp" \/ key = "ArrowLeft" ->
        preventDefault eff = true /\ sel' = ids filtered !! (i - 1)%nat) /\
     (key <> "ArrowDown" -> key <> "ArrowRight" -> key <> "ArrowUp" ->
      key <> "ArrowLeft" -> eff = no_effect /\ keydown sp filtered key = None)).
Proof.
  split.
  { intros Hcur. unfold keydown. rewrite Hcur. done. }
  intros cur i Hcur Hnd Hne Hi eff sel'.
  assert (Hnonempty : forall n t, ids filtered !! n = Some t -> t <> "").
  { intros n t Hn ->. apply Hne, list_elem_of_lookup. by exists n. }
  assert (Hfirst : forall j, (j < i)%nat -> ids filtered !! j <> Some (id cur)).
  { intros j Hj Hx. assert (j = i) by (eapply NoDup_lookup; eauto). lia. }
  pose proof (lookup_lt_Some _ _ _ Hi) as Hlt.
  assert (Heff : eff = _) by
    (unfold eff; rewrite Hcur; exact (handler_active (ids filtered) (id cur) key i
                                        (Hnonempty _ _ Hi) Hi Hfirst)).
  assert (Hmove : forall n, (n < length (ids filtered))%nat ->
            onSelect eff = default [] ((fun t => [t]) <$> ids filtered !! n) ->
            sel' = ids filtered !! n).
  { intros n Hn Hsel. unfold sel', keydown. fold eff. rewrite Hsel.
    destruct (lookup_lt_is_Some_2 _ _ Hn) as [t Ht]. rewrite Ht. simpl.
    apply URLSearchParamsFacts.get_set_eq. }
  split; [|split].
  - intros Hkey.
    destruct (lookup_lt_is_Some_2 (ids filtered)
                (Nat.min (length (ids filtered) - 1) (i + 1))) as [t Ht]; [lia|].
    assert (Hdown : eff = {| preventDefault := true; onSelect := [t] |}).
    { assert (Hhit : bool_decide (key = "ArrowDown") || bool_decide (key = "ArrowRight") = true)
        by (destruct Hkey as [-> | ->]; reflexivity).
      assert (Hmiss : bool_decide (key = "ArrowUp") || bool_decide (key = "ArrowLeft") = false)
        by (destruct Hkey as [-> | ->]; reflexivity).
      rewrite Heff. cbv zeta. rewrite Hhit, Hmiss.
      by rewrite (key_block_hit _ _ t Ht (Hnonempty _ _ Ht)). }
    split; [by rewrite Hdown|]. apply Hmove; [lia|]. by rewrite Hdown, Ht.
  - intros Hkey.
    destruct (lookup_lt_is_Some_2 (ids filtered) (i - 1)) as [t Ht]; [lia|].
    assert (Hup : eff = {| preventDefault := true; onSelect := [t] |}).
    { assert (Hhit : bool_decide (key = "ArrowUp") || bool_decide (key = "ArrowLeft") = true)
        by (destruct Hkey as [-> | ->]; reflexivity).
      assert (Hmiss : bool_decide (key = "ArrowDown") || bool_decide (key = "ArrowRight") = false)
        by (destruct Hkey as [-> | ->]; reflexivity).
      rewrite Heff. cbv zeta. rewrite Hhit, Hmiss.
      by rewrite (key_block_hit _ _ t Ht (Hnonempty _ _ Ht)). }
    split; [by rewrite Hup|]. apply Hmove; [lia|]. by rewrite Hup, Ht.
  - intros H1 H2 H3 H4.
    assert (Hnone : eff = no_effect).
    { rewrite Heff. cbv zeta. by rewrite !bool_decide_eq_false_2. }
    split; [exact Hnone|]. unfold keydown. fold eff. by rewrite Hnone.
Qed.

Lemma keyboard_moves_with_clamping_witness :
  let mk := fun (i : string) =>
    {| id := i; question := ∅; answer := ∅; answerOpt := 0; options := [];
       difficulty := beginner; hasQuestionVideo := true; hasAnswerVideo := true;
       subcategories := ["X"]; parentCategories := ["P"] |} in
  let filtered := [mk "a"; mk "b"; mk "c"] in
  selectedId (after [("id", "c")] (keydown [("id", "c")] filtered "ArrowDown")) = Some "c" /\
  selectedId (after [("id", "a")] (keydown [("id", "a")] filtered "ArrowLeft")) = Some "a" /\
  selectedId (after [("id", "b")] (keydown [("id", "b")] filtered "ArrowRight")) = Some "c".
Proof.
  intros mk filtered.
  assert (Hnd : NoDup (ids filtered)) by (apply (bool_decide_unpack _); vm_compute; exact I).
  assert (Hne : "" ∉ ids filtered) by (apply (bool_decide_unpack _); vm_compute; exact I).
  destruct (keyboard_moves_with_clamping [("id", "c")] filtered "ArrowDown") as [_ Hc].
  destruct (keyboard_moves_with_clamping [("id", "a")] filtered "ArrowLeft") as [_ Ha].
  destruct (keyboard_moves_with_clamping [("id", "b")] filtered "ArrowRight") as [_ Hb].
  split; [|split].
  - destruct (Hc (mk "c") 2%nat eq_refl Hnd Hne eq_refl) as (Hdown & _ & _).
    destruct Hdown as [_ H]; [by left | exact H].
  - destruct (Ha (mk "a") 0%nat eq_refl Hnd Hne eq_refl) as (_ & Hup & _).
    destruct Hup as [_ H]; [by right | exact H].
  - destruct (Hb (mk "b") 1%nat eq_refl Hnd Hne eq_refl) as (Hdown & _ & _).
    destruct Hdown as [_ H]; [by right | exact H].
Defined.

(** X22. The Prev and Next buttons are disabled exactly when [go] would do
    nothing: with pairwise distinct, non-empty filtered ids and a current
    item, Next is disabled iff [go 1] is a no-op and Prev is disabled iff
    [go (-1)] is a no-op. *)
Theorem nav_buttons_disabled_iff_go_noop (sp : URLSearchParams.t)
    (filtered : list Situation) (cur : Situation) :
  NoDup (ids filtered) -> "" ∉ ids filtered ->
  current sp filtered = Some cur ->
  (nextDisabled filtered cur = true <-> go sp filtered 1 = None) /\
  (prevDisabled filtered cur = true <-> go sp filtered (-1) = None).
Proof.
  intros Hnd Hne Hcur.
  destruct (current_member sp filtered cur Hcur) as [_ Hin].
  destruct (indexOf_member _ _ Hin) as (i & Hidx & Hi & _).
  pose proof (lookup_lt_Some _ _ _ Hi) as Hlt.
  assert (Hnonempty : forall n t, ids filtered !! n = Some t -> t <> "").
  { intros n t Hn ->. apply Hne, list_elem_of_lookup. by exists n. }
  assert (Hgo : forall delta,
            go sp filtered delta = None <->
            at_index (ids filtered) (Z.of_nat i + delta) = None).
  { intros delta. unfold go. rewrite Hcur, Hidx.
    destruct (at_index _ _) as [t|] eqn:Ht; [|done].
    apply at_index_Some in Ht as (n & _ & Ht).
    rewrite falsy_Some, (bool_decide_eq_false_2 _ (Hnonempty _ _ Ht)). done. }
  rewrite !Hgo. unfold nextDisabled, prevDisabled. rewrite !bool_decide_eq_true.
  replace (Z.of_nat (length (ids filtered)) - 1)%Z
    with (Z.of_nat (length (ids filtered) - 1)) by lia.
  change 0%Z with (Z.of_nat 0). rewrite !at_index_nat.
  replace (Z.of_nat i + 1)%Z with (Z.of_nat (i + 1)) by lia. rewrite at_index_nat.
  split; split.
  - intros Hlast. assert (length (ids filtered) - 1 = i)%nat
      by (eapply NoDup_lookup; eauto).
    apply lookup_ge_None. lia.
  - intros Hnone. apply lookup_ge_None in Hnone.
    replace (length (ids filtered) - 1)%nat with i by lia. done.
  - intros Hhead. assert (0 = i)%nat by (eapply NoDup_lookup; eauto). subst i.
    unfold at_index. done.
  - intros Hnone. destruct i as [|i]; [done|].
    replace (Z.of_nat (S i) + -1)%Z with (Z.of_nat i) in Hnone by lia.
    rewrite at_index_nat in Hnone. apply lookup_ge_None in Hnone. lia.
Qed.

Lemma nav_buttons_disabled_iff_go_noop_witness :
  let mk := fun (i : string) =>
    {| id := i; question := ∅; answer := ∅; answerOpt := 0; options := [];
       difficulty := beginner; hasQuestionVideo := true; hasAnswerVideo := true;
       subcategories := ["X"]; parentCategories := ["P"] |} in
  let filtered := [mk "a"; mk "b"] in
  go [("id", "b")] filtered 1 = None /\ prevDisabled filtered (mk "b") = false.
Proof.
  intros mk filtered.
  destruct (nav_buttons_disabled_iff_go_noop [("id", "b")] filtered (mk "b")) as [Hnext _].
  - apply (bool_decide_unpack _). vm_compute. exact I.
  - apply (bool_decide_unpack _). vm_compute. exact I.
  - reflexivity.
  - split; [apply Hnext; reflexivity | reflexivity].
Defined.

(** ** The startup load, continued *)

Section LoadMore.

Lemma earlier_None_r (a : option (nat * string)) : earlier a None = a.
Proof. by destruct a as [[t m]|]. Qed.

(** The earliest of a list of possible rejections. *)
Lemma earliest_spec (rs : list (option (nat * string))) :
  match foldr earlier None rs with
  | Some (t, m) =>
      Some (t, m) ∈ rs /\ forall t' m', Some (t', m') ∈ rs -> (t <= t')%nat
  | None => forall r, r ∈ rs -> r = None
  end.
Proof.
  induction rs as [|r rs IH]; simpl.
  - intros r Hr. by apply elem_of_nil in Hr.
  - destruct (foldr earlier None rs) as [[t m]|].
    + destruct IH as [Hin Hmin]. destruct r as [[tr mr]|]; simpl.
      * destruct (Nat.leb_spec tr t).
        -- split; [apply list_elem_of_here|]. intros t' m' Hin'.
           apply elem_of_cons in Hin' as [Heq|Hin']; [inversion Heq; lia|].
           specialize (Hmin t' m' Hin'). lia.
        -- split; [by apply list_elem_of_further|]. intros t' m' Hin'.
           apply elem_of_cons in Hin' as [Heq|Hin']; [inversion Heq; lia|].
           by apply (Hmin t' m').
      * split; [by apply list_elem_of_further|]. intros t' m' Hin'.
        apply elem_of_cons in Hin' as [Heq|Hin']; [done|]. by apply (Hmin t' m').
    + destruct r as [[tr mr]|]; simpl.
      * split; [apply list_elem_of_here|]. intros t' m' Hin'.
        apply elem_of_cons in Hin' as [Heq|Hin']; [inversion Heq; lia|].
        by specialize (IH _ Hin').
      * intros r Hr. apply elem_of_cons in Hr as [->|Hr]; [done | by apply IH].
Qed.

Lemma Promise_all_rejects
    (b i a : Settled (list RawSituation))
    (c : Settled (list CategoryNode)) (m : Settled MediaManifest) (message : string) :
  Promise_all b i a c m = inl message ->
  foldr earlier None [rejection b; rejection i; rejection a; rejection c; rejection m]
  = None \/
  exists t, foldr earlier None
              [rejection b; rejection i; rejection a; rejection c; rejection m]
            = Some (t, message).
Proof.
  cbn [foldr]. rewrite earlier_None_r. unfold Promise_all.
  destruct (earlier (rejection b) _) as [[t msg]|] eqn:He; [|by left].
  intros H. right. exists t.
  destruct (outcome b), (outcome i), (outcome a), (outcome c), (outcome m);
    by inversion H.
Qed.

Lemma omap_id_elem (rs : list (option (nat * string))) (x : nat * string) :
  x ∈ omap (fun r : option (nat * string) => r) rs <-> Some x ∈ rs.
Proof.
  rewrite list_elem_of_omap. split.
  - intros (r & Hr & Heq). by subst r.
  - intros H. by exists (Some x).
Qed.


Lemma Promise_all_inr_inv
    (b i a : Settled (list RawSituation))
    (c : Settled (list CategoryNode)) (m : Settled MediaManifest) v :
  Promise_all b i a c m = inr v ->
  [rejection b; rejection i; rejection a; rejection c; rejection m]
  = [None; None; None; None; None].
Proof.
  unfold Promise_all, rejection.
  destruct (outcome b), (outcome i), (outcome a), (outcome c), (outcome m);
    try done; intros H; exfalso;
    match type of H with
    | match ?e with _ => _ end = _ => destruct e as [[? ?]|]; discriminate H
    end.
Qed.

End LoadMore.

(** X23. When requests fail, the error shown is the reason of the request
    that failed first: no failed request settled before the one whose
    message [load] reports. *)
Theorem load_reports_earliest_failure (st : AppState) (net : Network)
    (t : nat) (message : string) :
  (t, message) ∈ rejections net ->
  exists t0 message0,
    (t0, message0) ∈ rejections net /\ (t0 <= t)%nat /\
    error (load st net) = Some message0.
Proof.
  intros Hin. unfold rejections in *. apply omap_id_elem in Hin.
  pose proof (earliest_spec
    [rejection (req_beginner net); rejection (req_intermediate net);
     rejection (req_advanced net); rejection (req_categories net);
     rejection (req_media net)]) as Hmin.
  unfold load.
  destruct (Promise_all _ _ _ _ _) as [msg|[[[[vb vi] va] vc] vm]] eqn:Hall.
  - apply Promise_all_rejects in Hall as [Hnone|[t0 Hsome]].
    + rewrite Hnone in Hmin. by specialize (Hmin _ Hin).
    + rewrite Hsome in Hmin. destruct Hmin as [Hin0 Hle].
      exists t0, msg. split; [by apply omap_id_elem|]. split; [by eapply Hle|done].
  - exfalso. rewrite (Promise_all_inr_inv _ _ _ _ _ _ Hall) in Hin.
    repeat (apply elem_of_cons in Hin as [Hin|Hin]; [discriminate Hin|]).
    by apply elem_of_nil in Hin.
Qed.

Lemma load_reports_earliest_failure_witness :
  let ok := fun T (t : nat) (v : T) => (t, HttpResponse true 200 (inr v)) in
  let net := {| net_beginner := ok _ 3 [];
                net_intermediate := (2, HttpResponse false 404 (inl "unused"));
                net_advanced := ok _ 5 [];
                net_categories := (7, NetworkError "Failed to fetch");
                net_media := ok _ 4 ∅ |} in
  exists t0 message0,
    (t0, message0) ∈ rejections net /\ (t0 <= 7)%nat /\
    error (load initialState net) = Some message0.
Proof.
  intros ok net.
  apply (load_reports_earliest_failure initialState net 7 "Failed to fetch").
  vm_compute. apply list_elem_of_further, list_elem_of_here.
Defined.



(** ** The media-manifest script *)

Section ManifestFacts.

Lemma take_digits_app (ds : string) (c : ascii) (rest : string) :
  all_digits ds = true -> is_digit c = false ->
  take_digits (ds ++ String c rest) = (ds, String c rest).
Proof.
  intros Hds Hc. induction ds as [|d ds IH].
  - change (take_digits (String c rest) = ("", String c rest)).
    cbn [take_digits]. by rewrite Hc.
  - cbn [all_digits] in Hds. apply andb_true_iff in Hds as [Hd Hds].
    rewrite string_app_cons. cbn [take_digits]. by rewrite Hd, (IH Hds).
Qed.

Lemma take_digits_split (s : string) :
  s = (take_digits s).1 ++ (take_digits s).2 /\ all_digits (take_digits s).1 = true.
Proof.
  induction s as [|c s [IH1 IH2]]; [done|].
  cbn [take_digits]. destruct (is_digit c) eqn:Hc; cbn [fst snd].
  - rewrite string_app_cons, <- IH1. cbn [all_digits]. by rewrite Hc, IH2.
  - done.
Qed.

(** The regular expression accepts exactly the clip names of well-formed ids. *)
Lemma match_media_spec (name i kind : string) :
  match_media name = Some (i, kind) <->
  valid_id i = true /\ (kind = "question" \/ kind = "answer") /\ name = clip_name i kind.
Proof.
  split.
  - destruct name as [|c rest]; [done|]. cbn [match_media].
    destruct (is_lower_letter c) eqn:Hc; [|done].
    destruct (take_digits_split rest) as [Hsplit Hdigits].
    destruct (take_digits rest) as [ds r2]. cbn [fst snd] in *.
    case_bool_decide as Hds; [done|].
    assert (Hvalid : valid_id (String c ds) = true).
    { cbn [valid_id]. by rewrite Hc, Hdigits, (bool_decide_eq_false_2 _ Hds). }
    case_bool_decide as Hq; [|case_bool_decide as Ha; [|done]];
      intros H; inversion H; subst i kind r2 rest;
      (split; [exact Hvalid|]); (split; [auto|]); reflexivity.
  - intros (Hvalid & Hkind & ->).
    destruct i as [|c ds]; [done|]. cbn [valid_id] in Hvalid.
    apply andb_true_iff in Hvalid as [Hvalid Hdigits].
    apply andb_true_iff in Hvalid as [Hc Hds]. apply negb_true_iff in Hds.
    destruct Hkind as [-> | ->].
    + change (clip_name (String c ds) "question")
        with (String c (ds ++ String "_" "question.mp4")).
      cbn [match_media]. rewrite Hc, (take_digits_app ds "_" "question.mp4" Hdigits eq_refl).
      cbn [fst snd]. by rewrite Hds.
    + change (clip_name (String c ds) "answer")
        with (String c (ds ++ String "_" "answer.mp4")).
      cbn [match_media]. rewrite Hc, (take_digits_app ds "_" "answer.mp4" Hdigits eq_refl).
      cbn [fst snd]. by rewrite Hds.
Qed.

Lemma match_media_endsWith (name i kind : string) :
  match_media name = Some (i, kind) -> endsWith name ".mp4" = true.
Proof.
  intros H. apply match_media_spec in H as (_ & _ & ->).
  apply endsWith_spec. exists (i ++ "_" ++ kind). unfold clip_name.
  by rewrite !string_app_assoc.
Qed.

(** What one directory entry adds to the kinds of an id. *)
Lemma scan_entry_kinds (manifest : MediaManifest) (name i kind : string) :
  kind ∈ kinds_of (scan_entry manifest name) i <->
  kind ∈ kinds_of manifest i \/ match_media name = Some (i, kind).
Proof.
  unfold scan_entry, kinds_of.
  destruct (match_media name) as [[i0 k0]|] eqn:Hm.
  - rewrite (match_media_endsWith name i0 k0 Hm). cbn [negb].
    destruct (decide (i0 = i)) as [->|Hne].
    + case_bool_decide as Hin.
      * rewrite lookup_insert_eq. cbn [from_option Datatypes.id].
        split; [by left | intros [H|H]; [done | by inversion H; subst]].
      * rewrite lookup_insert_eq. cbn [from_option Datatypes.id].
        rewrite elem_of_app, list_elem_of_singleton.
        split; (intros [H|H]; [by left | right]); [by subst | by inversion H].
    + assert (Hother : forall l, default [] (<[ i0 := l ]> manifest !! i)
                                 = default [] (manifest !! i))
        by (intros l; by rewrite lookup_insert_ne).
      case_bool_decide as Hin; rewrite Hother;
        (split; [by left | intros [H|H]; [done | by inversion H]]).
  - destruct (negb (endsWith name ".mp4")); (split; [by left | intros [H|H]; done]).
Qed.

Lemma gen_manifest_kinds_from (entries : list string) (manifest : MediaManifest)
    (i kind : string) :
  kind ∈ kinds_of (fold_left scan_entry entries manifest) i <->
  kind ∈ kinds_of manifest i \/
  exists name, name ∈ entries /\ match_media name = Some (i, kind).
Proof.
  revert manifest. induction entries as [|name entries IH]; intros manifest.
  - cbn [fold_left]. split; [by left | intros [H|(name & Hin & _)]; [done|]].
    by apply elem_of_nil in Hin.
  - cbn [fold_left]. rewrite IH, scan_entry_kinds. split.
    + intros [[H|H]|(n & Hn & H)]; [by left | right | right].
      * exists name. split; [apply list_elem_of_here | done].
      * exists n. split; [by apply list_elem_of_further | done].
    + intros [H|(n & Hn & H)]; [by left; left|].
      apply elem_of_cons in Hn as [->|Hn]; [left; by right | right; by exists n].
Qed.

Lemma scan_entry_tidy (manifest : MediaManifest) (name : string) :
  tidy manifest -> tidy (scan_entry manifest name).
Proof.
  intros Htidy. unfold scan_entry.
  destruct (negb (endsWith name ".mp4")); [done|].
  destruct (match_media name) as [[i0 k0]|]; [|done].
  case_bool_decide as Hin; intros i l Hl.
  - destruct (decide (i0 = i)) as [->|Hne].
    + rewrite lookup_insert_eq in Hl. inversion Hl; subst l.
      destruct (manifest !! i) as [l0|] eqn:Hl0; [by apply (Htidy i)|].
      by apply elem_of_nil in Hin.
    + rewrite lookup_insert_ne in Hl by done. by apply (Htidy i).
  - destruct (decide (i0 = i)) as [->|Hne].
    + rewrite lookup_insert_eq in Hl. inversion Hl; subst l. split.
      * apply NoDup_app. split; [|split].
        -- destruct (manifest !! i) as [l0|] eqn:Hl0; [by apply (Htidy i) | constructor].
        -- intros x Hx Hx'. apply list_elem_of_singleton in Hx'. by subst.
        -- apply NoDup_singleton.
      * by destruct (default [] (manifest !! i)).
    + rewrite lookup_insert_ne in Hl by done. by apply (Htidy i).
Qed.

Lemma gen_manifest_tidy (entries : list string) : tidy (gen_manifest entries).
Proof.
  unfold gen_manifest.
  assert (H : forall manifest, tidy manifest -> tidy (fold_left scan_entry entries manifest)).
  { induction entries as [|name entries IH]; intros manifest Ht; [done|].
    cbn [fold_left]. by apply IH, scan_entry_tidy. }
  apply H. intros i l Hl. by rewrite lookup_empty in Hl.
Qed.

Lemma gen_manifest_kinds (entries : list string) (i kind : string) :
  kind ∈ kinds_of (gen_manifest entries) i <->
  valid_id i = true /\ (kind = "question" \/ kind = "answer") /\
  clip_name i kind ∈ entries.
Proof.
  unfold gen_manifest. rewrite gen_manifest_kinds_from. unfold kinds_of at 1.
  rewrite lookup_empty. cbn [from_option Datatypes.id]. split.
  - intros [H|(name & Hin & Hm)]; [by apply elem_of_nil in H|].
    apply match_media_spec in Hm as (Hv & Hk & ->). done.
  - intros (Hv & Hk & Hin). right. exists (clip_name i kind).
    split; [done|]. by apply match_media_spec.
Qed.

End ManifestFacts.

(** X25. The script's file-name pattern accepts exactly the names
    [<id>_question.mp4] and [<id>_answer.mp4] whose id is one lower-case
    letter followed by at least one digit, and it returns that id and kind. *)
Theorem clip_names_round_trip (name i kind : string) :
  (valid_id i = true -> (kind = "question" \/ kind = "answer") ->
     match_media (clip_name i kind) = Some (i, kind)) /\
  (match_media name = Some (i, kind) ->
     name = clip_name i kind /\ valid_id i = true /\
     (kind = "question" \/ kind = "answer")).
Proof.
  split.
  - intros Hv Hk. by apply match_media_spec.
  - intros H. apply match_media_spec in H as (Hv & Hk & Hn). done.
Qed.

Lemma clip_names_round_trip_witness :
  match_media (clip_name "b12" "answer") = Some ("b12", "answer") /\
  match_media "B12_answer.mp4" = None /\ match_media "b_answer.mp4" = None.
Proof.
  destruct (clip_names_round_trip "b12_answer.mp4" "b12" "answer") as [Hto _].
  split; [apply Hto; [reflexivity | by right]|]. split; reflexivity.
Defined.

(** X26. The generated manifest records a kind for an id exactly when the
    directory holds the clip of that name and the id is well formed; every
    entry is a non-empty list without repeats, however often or in whatever
    order the files are listed. *)
Theorem manifest_records_the_files (entries : list string) (i : string) :
  (forall kind, kind ∈ kinds_of (gen_manifest entries) i <->
     valid_id i = true /\ (kind = "question" \/ kind = "answer") /\
     clip_name i kind ∈ entries) /\
  (forall kinds, gen_manifest entries !! i = Some kinds ->
     NoDup kinds /\ kinds <> [] /\ (length kinds <= 2)%nat).
Proof.
  split; [intros kind; apply gen_manifest_kinds|].
  intros kinds Hk. destruct (gen_manifest_tidy entries i kinds Hk) as [Hnd Hne].
  split; [done|]. split; [done|].
  assert (Hsub : kinds ⊆ ["question"; "answer"]).
  { intros kind Hin.
    assert (Hin' : kind ∈ kinds_of (gen_manifest entries) i)
      by (unfold kinds_of; by rewrite Hk).
    apply gen_manifest_kinds in Hin' as (_ & [-> | ->] & _).
    - apply list_elem_of_here.
    - apply list_elem_of_further, list_elem_of_here. }
  apply (submseteq_length kinds ["question"; "answer"]).
  by apply NoDup_submseteq.
Qed.

Lemma manifest_records_the_files_witness :
  let entries := ["b1_answer.mp4"; "notes.txt"; "b1_question.mp4"; "b1_answer.mp4"; "X9_question.mp4"] in
  gen_manifest entries !! "b1" = Some ["answer"; "question"] /\
  NoDup ["answer"; "question"] /\
  gen_manifest entries !! "X9" = None.
Proof.
  intros entries.
  assert (Hb1 : gen_manifest entries !! "b1" = Some ["answer"; "question"])
    by (vm_compute; reflexivity).
  destruct (manifest_records_the_files entries "b1") as [_ Htidy].
  destruct (Htidy _ Hb1) as (Hnd & _ & _).
  split; [exact Hb1|]. split; [exact Hnd|]. vm_compute. reflexivity.
Defined.

(** X27. When the app loads the manifest the script generated from a
    directory listing, a normalized situation has a question (answer) video
    exactly when its id is well formed and the listing holds
    [<id>_question.mp4] ([<id>_answer.mp4]); and every clip the detail pane
    shows points at a file of that listing. *)
Theorem video_flags_follow_the_directory (entries : list string)
    (d : Difficulty) (index : option CategoryIndex) (item : RawSituation)
    (BASE_URL : string) :
  let S := normalizeSituation d (gen_manifest entries) index item in
  (hasQuestionVideo S = true <->
     valid_id (raw_id item) = true /\ clip_name (raw_id item) "question" ∈ entries) /\
  (hasAnswerVideo S = true <->
     valid_id (raw_id item) = true /\ clip_name (raw_id item) "answer" ∈ entries) /\
  (forall key src, (key, src) ∈ videos BASE_URL S ->
     exists name, name ∈ entries /\ src = BASE_URL ++ "media/" ++ name).
Proof.
  intros S.
  assert (Hflag : forall kind,
    match gen_manifest entries !! raw_id item with
    | Some kinds => bool_decide (kind ∈ kinds)
    | None => false
    end = true <-> kind ∈ kinds_of (gen_manifest entries) (raw_id item)).
  { intros kind. unfold kinds_of.
    destruct (gen_manifest entries !! raw_id item) as [kinds|]; cbn [from_option Datatypes.id].
    - apply bool_decide_eq_true.
    - split; [done | intros H; by apply elem_of_nil in H]. }
  assert (Hq : hasQuestionVideo S = true <->
     valid_id (raw_id item) = true /\ clip_name (raw_id item) "question" ∈ entries).
  { unfold S. cbn [hasQuestionVideo normalizeSituation].
    rewrite Hflag, gen_manifest_kinds. split; [intros (? & _ & ?); done|].
    intros [? ?]. split; [done|]. split; [by left | done]. }
  assert (Ha : hasAnswerVideo S = true <->
     valid_id (raw_id item) = true /\ clip_name (raw_id item) "answer" ∈ entries).
  { unfold S. cbn [hasAnswerVideo normalizeSituation].
    rewrite Hflag, gen_manifest_kinds. split; [intros (? & _ & ?); done|].
    intros [? ?]. split; [done|]. split; [by right | done]. }
  split; [exact Hq|]. split; [exact Ha|].
  intros key src Hin. unfold videos in Hin. apply elem_of_app in Hin as [Hin|Hin].
  - destruct (hasQuestionVideo S) eqn:Hv; [|by apply elem_of_nil in Hin].
    apply list_elem_of_singleton in Hin. inversion Hin; subst key src.
    exists (clip_name (raw_id item) "question"). split; [by apply Hq | done].
  - destruct (hasAnswerVideo S) eqn:Hv; [|by apply elem_of_nil in Hin].
    apply list_elem_of_singleton in Hin. inversion Hin; subst key src.
    exists (clip_name (raw_id item) "answer"). split; [by apply Ha | done].
Qed.

Lemma video_flags_follow_the_directory_witness :
  let entries := ["b1_question.mp4"; "B2_question.mp4"] in
  let raw := fun (i : string) =>
    {| raw_id := i; raw_question := ∅; raw_answer := ∅; raw_answerOpt := 0;
       raw_options := [] |} in
  hasQuestionVideo (normalizeSituation beginner (gen_manifest entries) None (raw "b1")) = true /\
  hasQuestionVideo (normalizeSituation beginner (gen_manifest entries) None (raw "B2")) = false.
Proof.
  intros entries raw.
  destruct (video_flags_follow_the_directory entries beginner None (raw "b1") "/") as [Hq _].
  split; [|reflexivity].
  apply Hq. split; [reflexivity | apply list_elem_of_here].
Defined.
